(** * NBA props analyzer: the numeric pipeline and the /analyze handler

    A shallow embedding of [src/pipeline.py] and [src/app.py].

    - Numbers. Python's [float] arithmetic is abstracted behind the
      interface [PyNum], so that every function of the pipeline is written
      once, operation by operation as in the source, and then read at two
      instances: [Q], exact rational arithmetic, in which the algebraic
      laws of the pipeline are stated and proved; and [float], IEEE-754
      binary64 with round-to-nearest-even (the kernel's primitive floats),
      which is what CPython computes with and which is used to evaluate
      the pipeline at concrete inputs and over ranges of integer odds:
      what the handler returns for a threshold is stated at this
      instance.
    - Exceptions. A float division whose divisor compares equal to zero
      raises [ZeroDivisionError]; divisions return an [option]. An
      exception that [analyze] does not catch is the answer [Unhandled].
    - Tables. A DataFrame is the list of its rows; [enrich_props] adds its
      three columns one after the other.
    - Dicts. The records of the result set are mutable dicts shared by two
      lists; they live in a heap addressed by position and a list of dicts
      is a list of addresses.
    - The outside world. Reading the CSV, [float()] of the query string,
      the prompt text and the HTTP backend are oracles of [Env]; what the
      handler does to the outside is recorded in a trace of events. *)

From Stdlib Require Import ZArith QArith Qfield Lqa Floats String Ascii Lia Sorted.
From stdpp Require Import base option list sorting.

Set Default Proof Using "Type".
Local Open Scope Q_scope.

(** ** Arithmetic interface *)

Class PyNum (F : Type) := {
  zero      : F;                    (* the literal 0 *)
  one       : F;                    (* the literal 1.0 *)
  hundred   : F;                    (* the literal 100.0 *)
  discount  : F;                    (* the literal 0.98 *)
  add       : F → F → F;
  sub       : F → F → F;
  mul       : F → F → F;
  neg       : F → F;
  div       : F → F → option F;     (* None: ZeroDivisionError *)
  gtb       : F → F → bool;         (* x > y *)
  geb       : F → F → bool          (* x >= y *)
}.

Declare Scope py_scope.
Delimit Scope py_scope with py.
Notation "x + y" := (add x y) : py_scope.
Notation "x - y" := (sub x y) : py_scope.
Notation "x * y" := (mul x y) : py_scope.
Notation "- x" := (neg x) : py_scope.
Notation "x /? y" := (div x y) (at level 40, left associativity) : py_scope.
Notation "x >? y" := (gtb x y) : py_scope.
Notation "x >=? y" := (geb x y) : py_scope.

(** Exact arithmetic. *)
#[export] Instance Q_num : PyNum Q := {|
  zero := 0;
  one := 1;
  hundred := 100;
  discount := 0.98;
  add := Qplus;
  sub := Qminus;
  mul := Qmult;
  neg := Qopp;
  div := λ x y, if Qeq_bool y 0 then None else Some (x / y);
  gtb := λ x y, negb (Qle_bool x y);
  geb := λ x y, Qle_bool y x
|}.

(** Binary64 arithmetic. [PrimFloat.eqb] identifies the two zeros and is
    false on NaN, as Python's test for a zero divisor. *)
#[export] Instance float_num : PyNum float := {|
  zero := 0%float;
  one := 1%float;
  hundred := 100%float;
  discount := 0x1.f5c28f5c28f5cp-1%float;   (* the double nearest to 0.98 *)
  add := PrimFloat.add;
  sub := PrimFloat.sub;
  mul := PrimFloat.mul;
  neg := PrimFloat.opp;
  div := λ x y, if PrimFloat.eqb y 0%float then None else Some (PrimFloat.div x y);
  gtb := λ x y, PrimFloat.ltb y x;
  geb := λ x y, PrimFloat.leb y x
|}.

(** ** pipeline.py *)

Section Pipeline.
Context {F : Type} `{PyNum F}.
Local Open Scope py_scope.

(** [american_to_prob]: American odds to implied win probability. *)
Definition american_to_prob (odds : F) : option F :=
  if odds >? zero then
    hundred /? (odds + hundred)
  else
    (- odds) /? (- odds + hundred).

(** The net return of a winning $1 stake, the [if] of [compute_ev_per_dollar]. *)
Definition win_return_of (odds : F) : option F :=
  if odds >? zero then
    odds /? hundred
  else
    hundred /? (- odds).

(** [compute_ev_per_dollar]: expected value per $1 stake. *)
Definition compute_ev_per_dollar (true_prob odds : F) : option F :=
  let p := true_prob in
  win_return ← win_return_of odds;
  let lose_return := - one in
  let ev := p * win_return + (one - p) * lose_return in
  Some ev.

(** One row of the props table, and one row of the enriched table. *)
Record PropRecord := mkProp {
  player : string;
  stat_line : string;
  american_odds : F
}.

Record EnrichedProp := mkEnriched {
  e_player : string;
  e_stat_line : string;
  e_american_odds : F;
  implied_prob : F;
  true_prob : F;
  ev_per_dollar : F
}.

(** [enrich_props] adds the three columns one after the other, each over
    the whole table; an exception in any row aborts the call. *)
Definition add_implied_prob (df : list PropRecord) : option (list (PropRecord * F)) :=
  mapM (λ r, p ← american_to_prob (american_odds r); Some (r, p)) df.

Definition add_true_prob (df : list (PropRecord * F)) : list (PropRecord * F * F) :=
  (λ rp, (rp, snd rp * discount)) <$> df.

Definition add_ev_per_dollar (df : list (PropRecord * F * F)) : option (list EnrichedProp) :=
  mapM (λ rpt,
          let r := fst (fst rpt) in
          ev ← compute_ev_per_dollar (snd rpt) (american_odds r);
          Some (mkEnriched (player r) (stat_line r) (american_odds r)
                           (snd (fst rpt)) (snd rpt) ev)) df.

Definition enrich_props (df : list PropRecord) : option (list EnrichedProp) :=
  df1 ← add_implied_prob df;
  let df2 := add_true_prob df1 in
  add_ev_per_dollar df2.

(** The three steps on one row. *)
Definition enrich_row (r : PropRecord) : option EnrichedProp :=
  p ← american_to_prob (american_odds r);
  let t := p * discount in
  ev ← compute_ev_per_dollar t (american_odds r);
  Some (mkEnriched (player r) (stat_line r) (american_odds r) p t ev).

End Pipeline.

Arguments PropRecord F : clear implicits.
Arguments EnrichedProp F : clear implicits.

(** ** app.py *)

(** *** Strings *)

(** [s.rstrip("/")]: drop every trailing slash. *)
Fixpoint rstrip_slash (s : string) : string :=
  match s with
  | EmptyString => EmptyString
  | String c s' =>
      match rstrip_slash s' with
      | EmptyString => if Ascii.eqb c "/" then EmptyString else String c EmptyString
      | t => String c t
      end
  end.

(** [s.lower()] on the ASCII letters, which decides membership in the
    all-ASCII tuple that [analyze] tests against. *)
Definition lower_ascii (c : ascii) : ascii :=
  let n := nat_of_ascii c in
  if (65 <=? n)%nat && (n <=? 90)%nat then ascii_of_nat (n + 32) else c.

Fixpoint lower (s : string) : string :=
  match s with
  | EmptyString => EmptyString
  | String c s' => String (lower_ascii c) (lower s')
  end.

(** *** The outside world

    What the handler does to the outside is recorded as a trace of events;
    what the outside answers is given by the oracles of [Env]. *)

Inductive LogLevel := INFO | WARNING | ERROR.

Record Payload := mkPayload {
  model : string;
  system_content : string;
  user_content : string;
  max_tokens : nat;
  temperature : Q
}.

Inductive Event :=
| EvReadCsv (path : string)
| EvPost (url : string) (payload : Payload) (timeout : nat)
| EvLog (level : LogLevel) (msg : string).

(** The events that are a request to the backend. *)
Definition is_post (e : Event) : bool :=
  match e with EvPost _ _ _ => true | _ => false end.

(** The outcome of [pd.read_csv] followed by the column test of [load_props]. *)
Inductive CsvOutcome (F : Type) :=
| CsvRaised (e : string)                    (* pd.read_csv raised *)
| CsvWithoutOdds                            (* parsed, no american_odds column *)
| CsvFrame (rows : list (PropRecord F)).    (* parsed, with the column *)
Arguments CsvRaised {F} e.
Arguments CsvWithoutOdds {F}.
Arguments CsvFrame {F} rows.

(** The outcome of the [try] block of [get_llm_explanation]: which of its
    four statements raised, or the text found at
    [data["choices"][0]["message"]["content"]]. *)
Inductive PostOutcome :=
| PostRaised (e : string)          (* requests.post: connection error, timeout *)
| StatusRaised (e : string)        (* resp.raise_for_status() *)
| JsonRaised (e : string)          (* resp.json() *)
| ShapeRaised (e : string)         (* the indexing, or .strip() on a non-string *)
| Completion (content : string).

(** A record of the result set: a Python dict, the enriched row plus the
    key that [analyze] may add. *)
Record PropDict (F : Type) := mkDict {
  fields : EnrichedProp F;
  llm_explanation : option string
}.
Arguments mkDict {F} fields llm_explanation.
Arguments fields {F} p.
Arguments llm_explanation {F} p.

Record Env (F : Type) := mkEnv {
  csv_path : string;                 (* os.path.join(ASSETS_DIR, DEFAULT_PROPS_FILE) *)
  VLLM_BASE_URL : option string;     (* os.environ.get("VLLM_BASE_URL") *)
  VLLM_MODEL : string;
  float_of_str : string → option F;  (* float(s); None: ValueError *)
  str_strip : string → string;       (* s.strip() *)
  format_prompt : EnrichedProp F → string;   (* the f-string of the prompt, stripped *)
  read_csv : string → CsvOutcome F;
  requests_post : list Event → string → Payload → PostOutcome
                                     (* the answer may depend on what happened before *)
}.
Arguments mkEnv {F}.
Arguments csv_path {F} e.
Arguments VLLM_BASE_URL {F} e.
Arguments VLLM_MODEL {F} e.
Arguments float_of_str {F} e s.
Arguments str_strip {F} e s.
Arguments format_prompt {F} e p.
Arguments read_csv {F} e path.
Arguments requests_post {F} e trace url payload.

(** *** Computations with a trace *)

Definition IO (A : Type) : Type := list Event → A * list Event.

Definition io_ret {A} (x : A) : IO A := λ t, (x, t).
Definition io_bind {A B} (m : IO A) (k : A → IO B) : IO B :=
  λ t, let (x, t') := m t in k x t'.
Definition emit (e : Event) : IO unit := λ t, (tt, t ++ [e]).
Definition history : IO (list Event) := λ t, (t, t).
Definition run {A} (m : IO A) : A * list Event := m [].

#[export] Instance IO_ret : MRet IO := @io_ret.
#[export] Instance IO_bind : MBind IO := λ A B k m, io_bind m k.

(** The answer of the handler. [Unhandled] is an exception that escapes
    [analyze] (the framework answers it with a server error). *)
Inductive Response (F : Type) :=
| Json200 (records : list (PropDict F))
| Error400 (msg : string)
| Error500 (msg : string)
| Unhandled.
Arguments Json200 {F} records.
Arguments Error400 {F} msg.
Arguments Error500 {F} msg.
Arguments Unhandled {F}.

(** [sorted(l, key=..., reverse=True)]: descending by key, and stable
    (equal keys keep their order), here as an insertion sort. *)
Section Sorted.
Context {F : Type} `{PyNum F} {A : Type} (key : A → F).
Local Open Scope py_scope.

Fixpoint insert_desc (x : A) (l : list A) : list A :=
  match l with
  | [] => [x]
  | y :: l' => if key y >? key x then y :: insert_desc x l' else x :: l
  end.

Definition sorted_desc (l : list A) : list A := foldr insert_desc [] l.
End Sorted.

Section App.
Context {F : Type} `{PyNum F} (env : Env F).
Local Open Scope py_scope.

Definition not_configured_msg : string :=
  "LLM explanation not available (VLLM_BASE_URL is not configured).".
Definition error_msg : string :=
  "LLM explanation could not be generated due to an error.".

Definition chat_payload (prompt : string) : Payload :=
  mkPayload (VLLM_MODEL env) "You are a concise NBA betting assistant." prompt 160 0.3.

(** [requests.post(url, json=payload, timeout=20)] and the three
    statements after it. *)
Definition post (url : string) (payload : Payload) : IO PostOutcome :=
  t ← history;
  emit (EvPost url payload 20);;
  mret (requests_post env t url payload).

(** [get_llm_explanation]. An unset and an empty [VLLM_BASE_URL] are both
    falsy. *)
Definition get_llm_explanation (prop : PropDict F) : IO string :=
  match VLLM_BASE_URL env with
  | None | Some EmptyString => mret not_configured_msg
  | Some base =>
      let url := (rstrip_slash base ++ "/v1/chat/completions")%string in
      let prompt := format_prompt env (fields prop) in
      let payload := chat_payload prompt in
      outcome ← post url payload;
      match outcome with
      | Completion content => mret (str_strip env content)
      | PostRaised e | StatusRaised e | JsonRaised e | ShapeRaised e =>
          emit (EvLog WARNING ("vLLM call failed: " ++ e));;
          mret error_msg
      end
  end.

(** The two states of the configuration, the URL that is posted to, and
    the outcomes that are an exception inside the [try]. *)
Definition configured (base : string) : Prop :=
  VLLM_BASE_URL env = Some base ∧ base ≠ EmptyString.

Definition unconfigured : Prop :=
  VLLM_BASE_URL env = None ∨ VLLM_BASE_URL env = Some EmptyString.

Definition endpoint (base : string) : string :=
  (rstrip_slash base ++ "/v1/chat/completions")%string.

Definition is_failure (o : PostOutcome) : Prop :=
  match o with Completion _ => False | _ => True end.

(** [load_props]: [inl e] is a raised exception with message [e]. *)
Definition load_props (path : string) : IO (string + list (PropRecord F)) :=
  emit (EvReadCsv path);;
  mret match read_csv env path with
         | CsvRaised e => inl e
         | CsvWithoutOdds => inl "CSV must contain an 'american_odds' column."%string
         | CsvFrame rows => inr rows
         end.

(** [enriched[enriched["ev_per_dollar"] >= min_ev]] *)
Definition filter_ev (min_ev : F) (enriched : list (EnrichedProp F)) : list (EnrichedProp F) :=
  List.filter (λ e, ev_per_dollar e >=? min_ev) enriched.

(** [filtered.to_dict(orient="records")] allocates one dict per row. The
    dicts are kept in a heap addressed by position; a Python list of
    dicts is a list of addresses. *)
Definition to_dict (filtered : list (EnrichedProp F)) : list (PropDict F) :=
  (λ e, mkDict e None) <$> filtered.

Definition ev_at (heap : list (PropDict F)) (r : nat) : F :=
  match heap !! r with
  | Some d => ev_per_dollar (fields d)
  | None => zero
  end.

(** [for r in records_sorted[:top_k]: r["llm_explanation"] = get_llm_explanation(r)] *)
Fixpoint explain_loop (refs : list nat) (heap : list (PropDict F)) : IO (list (PropDict F)) :=
  match refs with
  | [] => mret heap
  | r :: refs' =>
      match heap !! r with
      | Some d =>
          text ← get_llm_explanation d;
          explain_loop refs' (<[r := mkDict (fields d) (Some text)]> heap)
      | None => explain_loop refs' heap
      end
  end.

(** [jsonify(records)] reads every dict of the list as it is at the end. *)
Definition deref (heap : list (PropDict F)) (records : list nat) : list (PropDict F) :=
  omap (λ r, heap !! r) records.

Definition truthy (explain_str : string) : bool :=
  existsb (String.eqb explain_str) ["true"; "1"; "yes"; "y"]%string.

(** The body of [if explain and records:]. Besides the heap after the
    loop it hands back [records_sorted[:top_k]], the second view on the
    same dicts. *)
Definition explain_top_k (heap : list (PropDict F)) (records : list nat)
    : IO (list (PropDict F) * list nat) :=
  emit (EvLog INFO "Generating LLM explanations via vLLM...");;
  let records_sorted := sorted_desc (ev_at heap) records in
  let top_k := Nat.min 3 (length records_sorted) in
  let top := take top_k records_sorted in
  heap' ← explain_loop top heap;
  mret (heap', top).

(** The part of [analyze] after the table was enriched. *)
Definition select_and_explain (min_ev : F) (explain : bool)
    (enriched : list (EnrichedProp F)) : IO (list (PropDict F)) :=
  let filtered := filter_ev min_ev enriched in
  let heap := to_dict filtered in
  let records := seq 0 (length heap) in
  if explain && negb (bool_decide (records = [])) then
    views ← explain_top_k heap records;
    mret (deref (fst views) records)
  else
    mret (deref heap records).

(** [analyze], with the two query parameters as the request. *)
Definition analyze (arg_min_ev arg_explain : option string) : IO (Response F) :=
  let min_ev_str := default "0.0"%string arg_min_ev in
  let explain_str := lower (default "false"%string arg_explain) in
  match float_of_str env min_ev_str with
  | None => mret (Error400 "min_ev must be a number")
  | Some min_ev =>
      let explain := truthy explain_str in
      loaded ← load_props (csv_path env);
      match loaded with
      | inl e =>
          emit (EvLog ERROR ("Error loading CSV: " ++ e));;
          mret (Error500 ("Failed to load props CSV: " ++ e))
      | inr df =>
          match enrich_props df with
          | None => mret Unhandled
          | Some enriched =>
              records ← select_and_explain min_ev explain enriched;
              mret (Json200 records)
          end
      end
  end.

End App.

(** ** Binary64 on integer odds *)

(** [float(z)] for an integer of magnitude below 2^63. *)
Definition float_of_Z (z : Z) : float :=
  match z with
  | Z0 => 0%float
  | Zpos _ => PrimFloat.of_uint63 (Uint63.of_Z z)
  | Zneg p => PrimFloat.opp (PrimFloat.of_uint63 (Uint63.of_Z (Zpos p)))
  end.

(** [american_to_prob] returns, and its value is strictly between 0 and 1. *)
Definition prob_inside_unit {F : Type} `{PyNum F} (odds : F) : bool :=
  match american_to_prob odds with
  | Some p => gtb p zero && gtb one p
  | None => false
  end.

(** Neither [american_to_prob] nor the division of [compute_ev_per_dollar]
    raises. *)
Definition row_returns {F : Type} `{PyNum F} (odds : F) : bool :=
  match american_to_prob odds, win_return_of odds with
  | Some _, Some _ => true
  | _, _ => false
  end.

(** The expected value that [enrich_props] computes for a row with these
    odds fails the test [ev_per_dollar >= min_ev]. *)
Definition ev_fails {F : Type} `{PyNum F} (min_ev odds : F) : bool :=
  match american_to_prob odds with
  | Some p =>
      match compute_ev_per_dollar (mul p discount) odds with
      | Some ev => negb (geb ev min_ev)
      | None => false
      end
  | None => false
  end.

(** What is checked of the binary64 pipeline at the integer odds [z]. *)
Definition binary64_ok (z : Z) : bool :=
  prob_inside_unit (float_of_Z z) && row_returns (float_of_Z z)
  && ev_fails 0%float (float_of_Z z).

(** [P] on every integer from [lo] to [lo + 2^n - 1]. *)
Fixpoint holds_on (n : nat) (lo : Z) (P : Z → bool) : bool :=
  match n with
  | O => P lo
  | S n' => holds_on n' lo P && holds_on n' (lo + 2 ^ Z.of_nat n') P
  end.

(** ** A concrete world

    Five props, a [float()] that reads three strings, a prompt that is
    the player's name, and a backend that times out on the prompt "A" and
    answers the others. *)

Definition demo_rows : list (PropRecord Q) :=
  [mkProp "A" "Over 24.5 points" 150; mkProp "B" "Over 7.5 rebounds" (-110);
   mkProp "C" "Over 5.5 assists" 200; mkProp "D" "Under 2.5 threes" (-300);
   mkProp "E" "Over 1.5 steals" 120].

Definition demo_float (s : string) : option Q :=
  if String.eqb s "0.0" then Some 0
  else if String.eqb s "-1" then Some (- (1))
  else if String.eqb s "100" then Some 100
  else None.

Definition demo_backend (t : list Event) (url : string) (payload : Payload) : PostOutcome :=
  if String.eqb (user_content payload) "A" then PostRaised "timed out"
  else Completion (String.append "About " (user_content payload)).

Definition demo_env (base_url : option string) : Env Q :=
  mkEnv "assets/sample_props.csv" base_url "mistral-7b-instruct"
        demo_float (λ s, s) (λ e, e_player e)
        (λ _, CsvFrame demo_rows) demo_backend.

(** Enriched rows with distinct expected values, to exercise the ranking. *)
Definition demo_enriched : list (EnrichedProp Q) :=
  [mkEnriched "A" "a" 150 0.4 0.5 0.25; mkEnriched "B" "b" (-110) 0.5 0.5 (- 0.05);
   mkEnriched "C" "c" 200 0.3 0.4 0.2; mkEnriched "D" "d" (-300) 0.7 0.8 0.07;
   mkEnriched "E" "e" 120 0.4 0.5 0.1].

(** The table that [enrich_props] makes of [demo_rows], and the dict of its
    first row. *)
Definition demo_rows_enriched : list (EnrichedProp Q) :=
  Eval vm_compute in default [] (enrich_props demo_rows).

Definition demo_prop : PropDict Q :=
  mkDict (mkEnriched "A" "Over 24.5 points" 150 0.4 0.392 (- 0.02)) None.

(** ** Binary64: the values on integer odds *)

(** The expected value that [enrich_props] computes for a row with these
    odds. *)
Definition ev_of_odds {F : Type} `{PyNum F} (odds : F) : option F :=
  p ← american_to_prob odds; compute_ev_per_dollar (mul p discount) odds.

(** -0.02 less and plus 1e-15, and 1e-15. *)
Definition ev_low : float := (-0.020000000000001)%float.
Definition ev_high : float := (-0.019999999999999)%float.
Definition tiny : float := 1e-15%float.

(** The expected value of the row lies strictly between [ev_low] and
    [ev_high]. *)
Definition ev_near_constant (odds : float) : bool :=
  match ev_of_odds odds with
  | Some ev => PrimFloat.ltb ev_low ev && PrimFloat.ltb ev ev_high
  | None => false
  end.

(** [0 < true_prob < implied_prob] for the row. *)
Definition discount_ordered {F : Type} `{PyNum F} (odds : F) : bool :=
  match american_to_prob odds with
  | Some p => gtb (mul p discount) zero && gtb p (mul p discount)
  | None => false
  end.

(** The expected value at the implied probability is within [tiny] of 0. *)
Definition break_even_near (odds : float) : bool :=
  match american_to_prob odds with
  | Some p =>
      match compute_ev_per_dollar p odds with
      | Some ev => PrimFloat.ltb (- tiny) ev && PrimFloat.ltb ev tiny
      | None => false
      end
  | None => false
  end.

(** The win return is positive, the expected value is -1 at probability 0
    and the win return at probability 1. *)
Definition ev_endpoints (odds : float) : bool :=
  match win_return_of odds, compute_ev_per_dollar 0%float odds,
        compute_ev_per_dollar 1%float odds with
  | Some w, Some at0, Some at1 =>
      PrimFloat.ltb 0 w && PrimFloat.eqb at0 (-1) && PrimFloat.eqb at1 w
  | _, _, _ => false
  end.

(** The implied probability of the next integer odds is not above this
    one's (not asked across zero). *)
Definition next_not_above (z : Z) : bool :=
  if (z + 1 =? 0)%Z then true
  else
    match american_to_prob (float_of_Z z), american_to_prob (float_of_Z (z + 1)) with
    | Some p, Some p' => PrimFloat.leb p' p
    | _, _ => false
    end.

Definition binary64_fine (z : Z) : bool :=
  ev_near_constant (float_of_Z z) && discount_ordered (float_of_Z z)
  && break_even_near (float_of_Z z) && ev_endpoints (float_of_Z z)
  && next_not_above z.

(** A row whose odds are a nonzero integer of magnitude at most 100,000. *)
Definition integer_odds (r : PropRecord float) : Prop :=
  ∃ z, american_odds r = float_of_Z z ∧ z ≠ 0%Z ∧ (-100000 <= z <= 100000)%Z.

(** A binary64 world: the five props of the sample, a [float()] that reads
    a few strings. *)
Definition demo64_rows : list (PropRecord float) :=
  [mkProp "A" "Over 24.5 points" 150%float; mkProp "B" "Over 7.5 rebounds" (-110)%float;
   mkProp "C" "Over 5.5 assists" 200%float; mkProp "D" "Under 2.5 threes" (-300)%float;
   mkProp "E" "Over 1.5 steals" 120%float].

Definition demo64_float (s : string) : option float :=
  if String.eqb s "0.0" then Some 0%float
  else if String.eqb s "-0.01999999999999995" then Some (-0.01999999999999995)%float
  else if String.eqb s "-0.02" then Some (-0.02)%float
  else if String.eqb s "-0.02000000000000002" then Some (-0.02000000000000002)%float
  else if String.eqb s "-0.03" then Some (-0.03)%float
  else if String.eqb s "-1" then Some (-1)%float
  else None.

Definition demo64_env (base_url : option string) : Env float :=
  mkEnv "assets/sample_props.csv" base_url "mistral-7b-instruct"
        demo64_float (λ s, s) (λ e, e_player e)
        (λ _, CsvFrame demo64_rows) demo_backend.

Definition demo64_enriched : list (EnrichedProp float) :=
  Eval vm_compute in default [] (enrich_props demo64_rows).

(** Case analysis on every comparison of integers in sight. *)
Ltac split_compare :=
  repeat match goal with
         | H : context [Z.compare ?p ?q] |- _ => destruct (Z.compare_spec p q)
         | |- context [Z.compare ?p ?q] => destruct (Z.compare_spec p q)
         | H : context [Pos.compare ?p ?q] |- _ => destruct (Pos.compare_spec p q)
         | |- context [Pos.compare ?p ?q] => destruct (Pos.compare_spec p q)
         end.

(** ** Vocabulary of the further properties *)

(** A run of [k] slashes, as [s.rstrip("/")] removes it. *)
Fixpoint slashes (k : nat) : string :=
  match k with
  | O => EmptyString
  | S k' => String "/" (slashes k')
  end.

(** The request that [get_llm_explanation] sends for a row. *)
Definition post_of {F : Type} (env : Env F) (base : string) (e : EnrichedProp F) : Event :=
  EvPost (endpoint base) (chat_payload env (format_prompt env e)) 20.

(** A world whose CSV has no [american_odds] column, and one with a row of
    zero odds. *)
Definition env_without_column : Env Q :=
  mkEnv "props.csv" None "mistral-7b-instruct" demo_float (λ s, s) (λ e, e_player e)
        (λ _, CsvWithoutOdds) demo_backend.

Definition env_zero_odds : Env Q :=
  mkEnv "props.csv" None "mistral-7b-instruct" demo_float (λ s, s) (λ e, e_player e)
        (λ _, CsvFrame [mkProp "A" "Over 24.5 points" 150; mkProp "Z" "Over 0.5 blocks" 0])
        demo_backend.

(** The rows are in rank order already: no row has a greater expected
    value than the row before it. *)
Definition in_rank_order {F : Type} `{PyNum F} (filtered : list (EnrichedProp F)) : Prop :=
  Sorted (λ e1 e2, gtb (ev_per_dollar e2) (ev_per_dollar e1) = false) filtered.

(** The request for [prop] was sent, with [t0] the events before it, in
    the course of the events [t']. *)
Definition sent_before {F : Type} (env : Env F) (base : string) (prop : EnrichedProp F)
    (t0 t' : list Event) : Prop :=
  (t0 ++ [post_of env base prop]) `prefix_of` t'.

(** [text] is what [get_llm_explanation] makes of the record [prop] in the
    course of the events [t']: the first fixed message when no URL is
    configured; otherwise the request was sent, and the text is the second
    fixed message when the [try] block raised and the completion after
    [strip()] when the backend completed. *)
Definition explanation_text {F : Type} (env : Env F) (t' : list Event)
    (prop : EnrichedProp F) (text : string) : Prop :=
  (unconfigured env ∧ text = not_configured_msg) ∨
  ∃ base t0,
    configured env base ∧
    sent_before env base prop t0 t' ∧
    let outcome := requests_post env t0 (endpoint base)
                     (chat_payload env (format_prompt env prop)) in
    (is_failure outcome ∧ text = error_msg) ∨
    (∃ content, outcome = Completion content ∧ text = str_strip env content).

Definition explanation_field {F : Type} (env : Env F) (t' : list Event)
    (d : PropDict F) : Prop :=
  llm_explanation d = None ∨
  ∃ text, llm_explanation d = Some text ∧ explanation_text env t' (fields d) text.

(** * Properties *)

(** ** Exact arithmetic: the operations of [Q_num] *)

Section ExactOps.
Local Open Scope py_scope.

Lemma Q_gtb_spec (x y : Q) : (x >? y) = true ↔ (y < x)%Q.
Proof.
  cbn. rewrite negb_true_iff. split.
  - intros Hle. apply Qnot_le_lt. intros Hxy.
    apply Qle_bool_iff in Hxy. congruence.
  - intros Hlt. destruct (Qle_bool x y) eqn:E; [|reflexivity].
    apply Qle_bool_iff in E. exfalso. revert E. now apply Qlt_not_le.
Qed.

Lemma Q_gtb_false (x y : Q) : (x >? y) = false ↔ (x <= y)%Q.
Proof.
  cbn. rewrite negb_false_iff. apply Qle_bool_iff.
Qed.

Lemma Q_geb_spec (x y : Q) : (x >=? y) = true ↔ (y <= x)%Q.
Proof. cbn. apply Qle_bool_iff. Qed.

Lemma Q_div_nonzero (x y : Q) : ¬ (y == 0)%Q → x /? y = Some (x / y)%Q.
Proof.
  intros Hy. cbn. destruct (Qeq_bool y 0) eqn:E; [|reflexivity].
  apply Qeq_bool_eq in E. contradiction.
Qed.

Lemma Q_div_zero (x y : Q) : (y == 0)%Q → x /? y = None.
Proof.
  intros Hy. cbn. apply Qeq_bool_iff in Hy. now rewrite Hy.
Qed.
End ExactOps.

(** ** [american_to_prob] and [compute_ev_per_dollar] in exact arithmetic *)

Lemma american_to_prob_pos (o : Q) :
  0 < o → american_to_prob o = Some (100 / (o + 100)).
Proof.
  intros Ho. unfold american_to_prob.
  destruct (gtb o zero) eqn:E.
  - apply Q_div_nonzero. cbn. lra.
  - apply Q_gtb_false in E. cbn in E. lra.
Qed.

Lemma american_to_prob_nonpos (o : Q) :
  o <= 0 → american_to_prob o = Some (- o / (- o + 100)).
Proof.
  intros Ho. unfold american_to_prob.
  destruct (gtb o zero) eqn:E.
  - apply Q_gtb_spec in E. cbn in E. lra.
  - apply Q_div_nonzero. cbn. lra.
Qed.

Lemma win_return_pos (o : Q) : 0 < o → win_return_of o = Some (o / 100).
Proof.
  intros Ho. unfold win_return_of.
  destruct (gtb o zero) eqn:E.
  - apply Q_div_nonzero. cbn. lra.
  - apply Q_gtb_false in E. cbn in E. lra.
Qed.

Lemma win_return_neg (o : Q) : o < 0 → win_return_of o = Some (100 / - o).
Proof.
  intros Ho. unfold win_return_of.
  destruct (gtb o zero) eqn:E.
  - apply Q_gtb_spec in E. cbn in E. lra.
  - apply Q_div_nonzero. cbn. lra.
Qed.

Lemma win_return_zero (o : Q) : o == 0 → win_return_of o = None.
Proof.
  intros Ho. unfold win_return_of.
  destruct (gtb o zero) eqn:E.
  - apply Q_gtb_spec in E. cbn in E. lra.
  - apply Q_div_zero. cbn. lra.
Qed.

Lemma Q_nonzero_cases (o : Q) : ¬ o == 0 → 0 < o ∨ o < 0.
Proof.
  intros Ho. destruct (Q_dec o 0) as [[Hlt | Hgt] | Heq]; auto. contradiction.
Qed.

Lemma Qdiv_pos_lt_1 (a b : Q) : 0 < a → a < b → 0 < a / b ∧ a / b < 1.
Proof.
  intros Ha Hab. assert (Hb : 0 < b) by lra. split.
  - apply Qlt_shift_div_l; lra.
  - apply Qlt_shift_div_r; lra.
Qed.

Lemma american_to_prob_total (o : Q) : is_Some (american_to_prob o).
Proof.
  destruct (Qlt_le_dec 0 o) as [Hpos | Hnonpos].
  - rewrite american_to_prob_pos by assumption. eauto.
  - rewrite american_to_prob_nonpos by assumption. eauto.
Qed.

Lemma american_to_prob_bounds (o p : Q) :
  ¬ o == 0 → american_to_prob o = Some p → 0 < p ∧ p < 1.
Proof.
  intros Ho Hp. destruct (Q_nonzero_cases o Ho) as [Hpos | Hneg].
  - rewrite american_to_prob_pos in Hp by assumption.
    injection Hp as <-. apply Qdiv_pos_lt_1; lra.
  - rewrite american_to_prob_nonpos in Hp by lra.
    injection Hp as <-. apply Qdiv_pos_lt_1; lra.
Qed.

Lemma compute_ev_per_dollar_unfold (p o w : Q) :
  win_return_of o = Some w →
  compute_ev_per_dollar p o = Some (p * w + (1 - p) * - (1)).
Proof.
  intros Hw. unfold compute_ev_per_dollar. rewrite Hw. reflexivity.
Qed.

(** The composition of the three steps on one row, with either order of
    the product by 0.98. *)
Lemma pipeline_ev_pos (o : Q) :
  0 < o →
  0.98 * (100 / (o + 100)) * (o / 100) + (1 - 0.98 * (100 / (o + 100))) * - (1)
  == - (1 # 50).
Proof. intros Ho. field. lra. Qed.

Lemma pipeline_ev_neg (o : Q) :
  o < 0 →
  0.98 * (- o / (- o + 100)) * (100 / - o) + (1 - 0.98 * (- o / (- o + 100))) * - (1)
  == - (1 # 50).
Proof. intros Ho. field. split; lra. Qed.

Lemma pipeline_ev_constant (o p ev : Q) :
  ¬ o == 0 →
  american_to_prob o = Some p →
  compute_ev_per_dollar (p * 0.98) o = Some ev →
  ev == - (1 # 50).
Proof.
  intros Ho Hp Hev. destruct (Q_nonzero_cases o Ho) as [Hpos | Hneg].
  - rewrite american_to_prob_pos in Hp by assumption. injection Hp as <-.
    rewrite (compute_ev_per_dollar_unfold _ _ _ (win_return_pos o Hpos)) in Hev.
    injection Hev as <-. rewrite <- (pipeline_ev_pos o Hpos). ring.
  - rewrite american_to_prob_nonpos in Hp by lra. injection Hp as <-.
    rewrite (compute_ev_per_dollar_unfold _ _ _ (win_return_neg o Hneg)) in Hev.
    injection Hev as <-. rewrite <- (pipeline_ev_neg o Hneg). ring.
Qed.

(** ** Binary64: checking a range of integer odds by evaluation *)

Lemma holds_on_spec (n : nat) (P : Z → bool) :
  ∀ lo, holds_on n lo P = true →
  ∀ z, (lo <= z < lo + 2 ^ Z.of_nat n)%Z → P z = true.
Proof.
  induction n as [| n IH]; intros lo Hall z Hz.
  - cbn in Hall, Hz. assert (z = lo) as -> by lia. exact Hall.
  - cbn [holds_on] in Hall. apply andb_true_iff in Hall as [Hleft Hright].
    rewrite Nat2Z.inj_succ, Z.pow_succ_r in Hz by lia.
    destruct (Z_lt_le_dec z (lo + 2 ^ Z.of_nat n)) as [Hlow | Hhigh].
    + apply (IH lo Hleft). lia.
    + apply (IH _ Hright). lia.
Qed.

Lemma binary64_positive_integer_odds : holds_on 17 1 binary64_ok = true.
Proof. vm_compute. reflexivity. Qed.

Lemma binary64_negative_integer_odds : holds_on 17 (- 2 ^ 17) binary64_ok = true.
Proof. vm_compute. reflexivity. Qed.

Lemma binary64_integer_odds (z : Z) :
  z ≠ 0%Z → (-100000 <= z <= 100000)%Z → binary64_ok z = true.
Proof.
  intros Hz Hrange. destruct (Z_lt_le_dec z 0) as [Hneg | Hpos].
  - apply (holds_on_spec 17 binary64_ok _ binary64_negative_integer_odds).
    change (2 ^ Z.of_nat 17)%Z with 131072%Z. change (- 2 ^ 17)%Z with (-131072)%Z. lia.
  - apply (holds_on_spec 17 binary64_ok _ binary64_positive_integer_odds).
    change (2 ^ Z.of_nat 17)%Z with 131072%Z. lia.
Qed.

Lemma binary64_integer_odds_bounds (z : Z) :
  z ≠ 0%Z → (-100000 <= z <= 100000)%Z →
  prob_inside_unit (float_of_Z z) = true.
Proof.
  intros Hz Hrange. pose proof (binary64_integer_odds z Hz Hrange) as Hok.
  unfold binary64_ok in Hok. rewrite !andb_true_iff in Hok. tauto.
Qed.

Lemma binary64_integer_odds_returns (z : Z) :
  z ≠ 0%Z → (-100000 <= z <= 100000)%Z → row_returns (float_of_Z z) = true.
Proof.
  intros Hz Hrange. pose proof (binary64_integer_odds z Hz Hrange) as Hok.
  unfold binary64_ok in Hok. rewrite !andb_true_iff in Hok. tauto.
Qed.

Lemma binary64_integer_odds_ev (z : Z) :
  z ≠ 0%Z → (-100000 <= z <= 100000)%Z → ev_fails 0%float (float_of_Z z) = true.
Proof.
  intros Hz Hrange. pose proof (binary64_integer_odds z Hz Hrange) as Hok.
  unfold binary64_ok in Hok. rewrite !andb_true_iff in Hok. tauto.
Qed.

(** For any arithmetic: the expected value, once the division returned. *)
Lemma compute_ev_per_dollar_of_win_return {F : Type} `{PyNum F} (p o w : F) :
  win_return_of o = Some w →
  compute_ev_per_dollar p o = Some (add (mul p w) (mul (sub one p) (neg one))).
Proof.
  intros Hw. unfold compute_ev_per_dollar. rewrite Hw. reflexivity.
Qed.

Lemma row_returns_spec {F : Type} `{PyNum F} (o : F) :
  row_returns o = true →
  is_Some (american_to_prob o) ∧ ∀ p, is_Some (compute_ev_per_dollar p o).
Proof.
  unfold row_returns. intros Hret.
  destruct (american_to_prob o) as [q|]; [|discriminate].
  destruct (win_return_of o) as [w|] eqn:Hw; [|discriminate].
  split; [eauto|]. intros p.
  rewrite (compute_ev_per_dollar_of_win_return p o w Hw). eauto.
Qed.

Lemma binary64_integer_odds_total (z : Z) (p : float) :
  z ≠ 0%Z → (-100000 <= z <= 100000)%Z →
  is_Some (american_to_prob (float_of_Z z)) ∧
  is_Some (compute_ev_per_dollar p (float_of_Z z)).
Proof.
  intros Hz Hrange. pose proof (binary64_integer_odds_returns z Hz Hrange) as Hret.
  destruct (row_returns_spec _ Hret) as [Hp Hev]. split; [exact Hp | apply Hev].
Qed.

(** ** Claims on the two numeric functions *)

(** C2, as the code has it. For positive odds [american_to_prob] returns
    [100/(o+100)], for negative odds [-o/(-o+100)]. In exact arithmetic the
    value is strictly between 0 and 1 for every nonzero odds; in binary64
    it is so for every nonzero integer odds of magnitude at most 100,000
    (at much larger magnitudes the rounded quotient reaches 1.0). *)
Theorem american_to_prob_spec (o : Q) (z : Z) :
  ¬ o == 0 → z ≠ 0%Z → (-100000 <= z <= 100000)%Z →
  (0 < o → american_to_prob o = Some (100 / (o + 100))) ∧
  (o < 0 → american_to_prob o = Some (- o / (- o + 100))) ∧
  (∃ p, american_to_prob o = Some p ∧ 0 < p ∧ p < 1) ∧
  prob_inside_unit (float_of_Z z) = true.
Proof.
  intros Ho Hz Hrange. repeat split.
  - apply american_to_prob_pos.
  - intros Hneg. apply american_to_prob_nonpos. lra.
  - destruct (american_to_prob_total o) as [p Hp].
    exists p. split; [exact Hp|]. exact (american_to_prob_bounds o p Ho Hp).
  - exact (binary64_integer_odds_bounds z Hz Hrange).
Qed.

Lemma american_to_prob_spec_witness :
  (¬ -110 == 0 ∧ (150 ≠ 0)%Z ∧ (-100000 <= 150 <= 100000)%Z) ∧
  ((0 < -110 → american_to_prob (-110) = Some (100 / (-110 + 100))) ∧
   (-110 < 0 → american_to_prob (-110) = Some (- -110 / (- -110 + 100))) ∧
   (∃ p, american_to_prob (-110) = Some p ∧ 0 < p ∧ p < 1) ∧
   prob_inside_unit (float_of_Z 150) = true).
Proof.
  assert (H1 : ¬ -110 == 0) by (intros E; discriminate E).
  assert (H2 : (150 ≠ 0)%Z) by lia.
  assert (H3 : (-100000 <= 150 <= 100000)%Z) by lia.
  split; [auto | exact (american_to_prob_spec (-110) 150 H1 H2 H3)].
Defined.

(** C2, as the claim states it, fails in binary64: at odds -1e20 the sum
    [1e20 + 100.0] rounds to [1e20] and the function returns exactly 1.0,
    which is not strictly below 1. *)
Lemma american_to_prob_saturates_binary64 :
  PrimFloat.eqb (-1e20) 0 = false ∧
  american_to_prob (-1e20)%float = Some 1%float ∧
  prob_inside_unit (-1e20)%float = false.
Proof. repeat split; reflexivity. Qed.

(** C3. For nonzero odds [compute_ev_per_dollar p o] is
    [p * win_return + (1 - p) * (-1)] with [win_return = o/100] for
    positive and [100/(-o)] for negative odds; nothing clamps the result:
    at odds +100 it is negative for p = 0, zero for p = 1/2 and positive
    for p = 1. *)
Theorem compute_ev_per_dollar_formula (p o : Q) :
  ¬ o == 0 →
  (∃ win_return,
     (0 < o → win_return = o / 100) ∧
     (o < 0 → win_return = 100 / - o) ∧
     compute_ev_per_dollar p o = Some (p * win_return + (1 - p) * - (1))) ∧
  (∃ ev, compute_ev_per_dollar 0 100 = Some ev ∧ ev < 0) ∧
  (∃ ev, compute_ev_per_dollar (1 # 2) 100 = Some ev ∧ ev == 0) ∧
  (∃ ev, compute_ev_per_dollar 1 100 = Some ev ∧ 0 < ev).
Proof.
  intros Ho. split; [|repeat split].
  - destruct (Q_nonzero_cases o Ho) as [Hpos | Hneg].
    + exists (o / 100). repeat split; [lra|].
      apply compute_ev_per_dollar_unfold, win_return_pos, Hpos.
    + exists (100 / - o). repeat split; [lra|].
      apply compute_ev_per_dollar_unfold, win_return_neg, Hneg.
  - eexists. split; [reflexivity | reflexivity].
  - eexists. split; [reflexivity | reflexivity].
  - eexists. split; [reflexivity | reflexivity].
Qed.

Lemma compute_ev_per_dollar_formula_witness :
  ¬ 150 == 0 ∧
  ∃ win_return,
    (0 < 150 → win_return = 150 / 100) ∧
    (150 < 0 → win_return = 100 / - 150) ∧
    compute_ev_per_dollar 0.392 150 = Some (0.392 * win_return + (1 - 0.392) * - (1)).
Proof.
  assert (H1 : ¬ 150 == 0) by (intros E; discriminate E).
  split; [exact H1 | exact (proj1 (compute_ev_per_dollar_formula 0.392 150 H1))].
Defined.

Lemma compute_ev_per_dollar_total (true_p o : Q) :
  ¬ o == 0 → is_Some (compute_ev_per_dollar true_p o).
Proof.
  intros Ho. destruct (Q_nonzero_cases o Ho) as [Hpos | Hneg].
  - rewrite (compute_ev_per_dollar_unfold _ _ _ (win_return_pos o Hpos)). eauto.
  - rewrite (compute_ev_per_dollar_unfold _ _ _ (win_return_neg o Hneg)). eauto.
Qed.

(** C9. On nonzero odds no division of [american_to_prob] or of
    [compute_ev_per_dollar] has a zero divisor, so both functions return:
    in exact arithmetic for every nonzero odds, and in binary64 for every
    nonzero integer odds of magnitude at most 100,000. *)
Theorem no_zero_division_on_nonzero_odds (true_p o : Q) (true_f : float) (z : Z) :
  ¬ o == 0 → z ≠ 0%Z → (-100000 <= z <= 100000)%Z →
  (is_Some (american_to_prob o) ∧ is_Some (compute_ev_per_dollar true_p o)) ∧
  (is_Some (american_to_prob (float_of_Z z)) ∧
   is_Some (compute_ev_per_dollar true_f (float_of_Z z))).
Proof.
  intros Ho Hz Hrange. split; [split|].
  - apply american_to_prob_total.
  - apply compute_ev_per_dollar_total, Ho.
  - apply binary64_integer_odds_total; assumption.
Qed.

Lemma no_zero_division_on_nonzero_odds_witness :
  (¬ -110 == 0 ∧ (-110 ≠ 0)%Z ∧ (-100000 <= -110 <= 100000)%Z) ∧
  (is_Some (american_to_prob (-110)) ∧ is_Some (compute_ev_per_dollar 0.5 (-110))) ∧
  (is_Some (american_to_prob (float_of_Z (-110))) ∧
   is_Some (compute_ev_per_dollar 0.5%float (float_of_Z (-110)))).
Proof.
  assert (H1 : ¬ -110 == 0) by (intros E; discriminate E).
  assert (H2 : (-110 ≠ 0)%Z) by lia.
  assert (H3 : (-100000 <= -110 <= 100000)%Z) by lia.
  split; [auto | exact (no_zero_division_on_nonzero_odds 0.5 (-110) 0.5%float (-110) H1 H2 H3)].
Defined.

(** The one division by zero of the pipeline: [100.0 / -odds] at zero odds. *)
Lemma compute_ev_per_dollar_zero_odds (true_p o : Q) :
  o == 0 → compute_ev_per_dollar true_p o = None.
Proof.
  intros Ho. unfold compute_ev_per_dollar. now rewrite (win_return_zero o Ho).
Qed.

(** C10. At zero odds [american_to_prob] takes the [else] branch and
    returns [-0 / (-0 + 100)]: zero, and not 1. In binary64 the value is
    the negative zero, which compares equal to 0.0. *)
Theorem american_to_prob_zero_odds :
  (∃ p : Q, american_to_prob 0 = Some p ∧ p = - 0 / (- 0 + 100) ∧ p == 0 ∧ ¬ p == 1) ∧
  (gtb (0 : Q) zero = false) ∧
  american_to_prob 0%float = Some (-0)%float ∧
  PrimFloat.eqb (-0) 0 = true ∧ PrimFloat.eqb (-0) 1 = false.
Proof.
  split; [|repeat split; reflexivity].
  exists (- 0 / (- 0 + 100)). repeat split.
  intros E. discriminate E.
Qed.

(** ** [enrich_props], for any arithmetic *)

Section Enrich.
Context {F : Type} `{PyNum F}.

(** Adding the columns one after the other is enriching row by row. *)
Lemma enrich_props_cons (r : PropRecord F) (df : list (PropRecord F)) :
  enrich_props (r :: df)
  = e ← enrich_row r; es ← enrich_props df; Some (e :: es).
Proof.
  unfold enrich_props, add_implied_prob, add_true_prob, add_ev_per_dollar, enrich_row.
  cbn. destruct (american_to_prob (american_odds r)) as [p|]; cbn; [|reflexivity].
  destruct (mapM _ df) as [df1|]; cbn.
  - destruct (compute_ev_per_dollar _ (american_odds r)); reflexivity.
  - destruct (compute_ev_per_dollar _ (american_odds r)); reflexivity.
Qed.

Lemma enrich_props_rows (df : list (PropRecord F)) (out : list (EnrichedProp F)) :
  enrich_props df = Some out ↔ Forall2 (λ r e, enrich_row r = Some e) df out.
Proof.
  revert out. induction df as [| r df IH]; intros out.
  - cbn. split.
    + intros [= <-]. constructor.
    + intros Hall. inversion Hall. reflexivity.
  - rewrite enrich_props_cons. split.
    + intros Hout. destruct (enrich_row r) as [e|] eqn:Hr; [|discriminate].
      cbn in Hout. destruct (enrich_props df) as [es|] eqn:Hdf; [|discriminate].
      injection Hout as <-. constructor; [exact Hr | now apply IH].
    + intros Hall. inversion Hall as [| ? e ? es Hr Hdf]; subst.
      rewrite Hr. cbn. apply IH in Hdf. rewrite Hdf. reflexivity.
Qed.

Lemma enrich_props_fails (df : list (PropRecord F)) :
  enrich_props df = None ↔ Exists (λ r, enrich_row r = None) df.
Proof.
  induction df as [| r df IH].
  - split; [discriminate | intros Hex; inversion Hex].
  - rewrite enrich_props_cons, Exists_cons, <- IH.
    destruct (enrich_row r); cbn; [|tauto].
    destruct (enrich_props df); cbn; split; try tauto; try discriminate.
    intros [? | ?]; discriminate.
Qed.

Lemma enrich_row_fields (r : PropRecord F) (e : EnrichedProp F) :
  enrich_row r = Some e →
  e_player e = player r ∧ e_stat_line e = stat_line r ∧
  e_american_odds e = american_odds r ∧
  american_to_prob (american_odds r) = Some (implied_prob e) ∧
  true_prob e = mul (implied_prob e) discount ∧
  compute_ev_per_dollar (true_prob e) (american_odds r) = Some (ev_per_dollar e).
Proof.
  unfold enrich_row. intros Hrow.
  destruct (american_to_prob (american_odds r)) as [p|] eqn:Hp; [|discriminate].
  cbn in Hrow.
  destruct (compute_ev_per_dollar _ (american_odds r)) as [ev|] eqn:Hev; [|discriminate].
  injection Hrow as <-. cbn. repeat split; assumption || reflexivity.
Qed.

End Enrich.

(** ** [enrich_props] in exact arithmetic *)

Lemma enrich_row_nonzero (r : PropRecord Q) :
  ¬ american_odds r == 0 → is_Some (enrich_row r).
Proof.
  intros Ho.
  destruct (american_to_prob_total (american_odds r)) as [p Hp].
  destruct (compute_ev_per_dollar_total (mul p discount) (american_odds r) Ho)
    as [ev Hev].
  unfold enrich_row. rewrite Hp. unfold mbind, option_bind. rewrite Hev. eauto.
Qed.

Lemma enrich_row_zero (r : PropRecord Q) :
  american_odds r == 0 → enrich_row r = None.
Proof.
  intros Ho.
  destruct (american_to_prob_total (american_odds r)) as [p Hp].
  unfold enrich_row. rewrite Hp. unfold mbind, option_bind.
  now rewrite (compute_ev_per_dollar_zero_odds _ _ Ho).
Qed.

Lemma enrich_props_nonzero (df : list (PropRecord Q)) :
  Forall (λ r, ¬ american_odds r == 0) df → is_Some (enrich_props df).
Proof.
  intros Hdf. destruct (enrich_props df) as [out|] eqn:E; [eauto|].
  apply enrich_props_fails in E. apply Exists_exists in E as (r & Hin & Hr).
  rewrite Forall_forall in Hdf.
  destruct (enrich_row_nonzero r (Hdf r Hin)) as [e He]. congruence.
Qed.

(** C1. On a batch of props (nonzero odds each) [enrich_props] returns one
    enriched row per input row, in the same order, carrying the source
    fields and [implied_prob = american_to_prob(american_odds)],
    [true_prob = 0.98 * implied_prob] and
    [ev_per_dollar = compute_ev_per_dollar(true_prob, american_odds)]. *)
Theorem enrich_props_one_to_one (df : list (PropRecord Q)) :
  Forall (λ r, ¬ american_odds r == 0) df →
  ∃ out,
    enrich_props df = Some out ∧
    length out = length df ∧
    ∀ (i : nat) (r : PropRecord Q), df !! i = Some r →
      ∃ e, out !! i = Some e ∧
           e_player e = player r ∧ e_stat_line e = stat_line r ∧
           e_american_odds e = american_odds r ∧
           american_to_prob (american_odds r) = Some (implied_prob e) ∧
           true_prob e == 0.98 * implied_prob e ∧
           compute_ev_per_dollar (true_prob e) (american_odds r)
           = Some (ev_per_dollar e).
Proof.
  intros Hdf. destruct (enrich_props_nonzero df Hdf) as [out Hout].
  exists out. split; [exact Hout|].
  apply enrich_props_rows in Hout. split.
  - symmetry. exact (Forall2_length _ _ _ Hout).
  - intros i r Hi.
    destruct (Forall2_lookup_l _ _ _ _ _ Hout Hi) as (e & He & Hrow).
    exists e. split; [exact He|].
    destruct (enrich_row_fields r e Hrow) as (H1 & H2 & H3 & H4 & H5 & H6).
    repeat split; try assumption.
    rewrite H5. cbn. ring.
Qed.

Lemma enrich_props_one_to_one_witness :
  Forall (λ r : PropRecord Q, ¬ american_odds r == 0) demo_rows ∧
  ∃ out, enrich_props demo_rows = Some out ∧ length out = length demo_rows.
Proof.
  assert (H1 : Forall (λ r : PropRecord Q, ¬ american_odds r == 0) demo_rows)
    by (repeat constructor; intros E; discriminate E).
  split; [exact H1|].
  destruct (enrich_props_one_to_one demo_rows H1) as (out & Hout & Hlen & _).
  exists out. auto.
Defined.

(** The same in binary64, on integer odds of realistic magnitude:
    [enrich_props] returns, one row per input row. *)
Lemma enrich_row_binary64 (r : PropRecord float) (z : Z) :
  american_odds r = float_of_Z z →
  z ≠ 0%Z → (-100000 <= z <= 100000)%Z →
  is_Some (enrich_row r).
Proof.
  intros Hodds Hz Hrange.
  pose proof (binary64_integer_odds_returns z Hz Hrange) as Hret.
  rewrite <- Hodds in Hret.
  destruct (row_returns_spec _ Hret) as [[p Hp] Hev].
  destruct (Hev (mul p discount)) as [ev Hev'].
  unfold enrich_row. rewrite Hp. unfold mbind, option_bind. rewrite Hev'. eauto.
Qed.

Lemma enrich_props_binary64 (df : list (PropRecord float)) :
  Forall (λ r, ∃ z, american_odds r = float_of_Z z ∧
                    z ≠ 0%Z ∧ (-100000 <= z <= 100000)%Z) df →
  ∃ out, enrich_props df = Some out ∧ length out = length df.
Proof.
  intros Hdf. destruct (enrich_props df) as [out|] eqn:E.
  - exists out. split; [reflexivity|].
    apply enrich_props_rows in E. symmetry. exact (Forall2_length _ _ _ E).
  - apply enrich_props_fails in E. apply Exists_exists in E as (r & Hin & Hr).
    rewrite Forall_forall in Hdf. destruct (Hdf r Hin) as (z & Hodds & Hz & Hrange).
    destruct (enrich_row_binary64 r z Hodds Hz Hrange) as [e He]. congruence.
Qed.


(** ** The handler, for any arithmetic *)

Section AppFacts.
Context {F : Type} `{PyNum F} (env : Env F).

(** *** Running a computation *)

Lemma io_bind_run {A B} (m : IO A) (k : A → IO B) (t : list Event) :
  (m ≫= k) t = k (m t).1 (m t).2.
Proof. unfold mbind, IO_bind, io_bind. destruct (m t). reflexivity. Qed.

Lemma emit_run (e : Event) (t : list Event) : emit e t = (tt, t ++ [e]).
Proof. reflexivity. Qed.

(** *** The filter *)

Lemma filter_ev_sublist (min_ev : F) (enriched : list (EnrichedProp F)) :
  filter_ev min_ev enriched `sublist_of` enriched.
Proof.
  unfold filter_ev. induction enriched as [| e l IH]; cbn.
  - constructor.
  - destruct (geb (ev_per_dollar e) min_ev).
    + now apply sublist_skip.
    + now apply sublist_cons.
Qed.

Lemma filter_ev_elem (min_ev : F) (enriched : list (EnrichedProp F)) (e : EnrichedProp F) :
  e ∈ filter_ev min_ev enriched ↔ e ∈ enriched ∧ geb (ev_per_dollar e) min_ev = true.
Proof.
  unfold filter_ev. rewrite !list_elem_of_In. apply filter_In.
Qed.

Lemma filter_ev_greatest (min_ev : F) (enriched kept : list (EnrichedProp F)) :
  kept `sublist_of` enriched →
  Forall (λ e, geb (ev_per_dollar e) min_ev = true) kept →
  kept `sublist_of` filter_ev min_ev enriched.
Proof.
  unfold filter_ev. intros Hsub. induction Hsub as [| e k l Hsub IH | e k l Hsub IH];
    intros Hall; cbn.
  - constructor.
  - apply Forall_cons in Hall as [He Hall]. rewrite He.
    apply sublist_skip, IH, Hall.
  - destruct (geb (ev_per_dollar e) min_ev).
    + apply sublist_cons, IH, Hall.
    + apply IH, Hall.
Qed.

(** *** The heap of dicts *)

Lemma deref_shift (pre heap : list (PropDict F)) :
  deref (pre ++ heap) (seq (length pre) (length heap)) = heap.
Proof.
  unfold deref. revert pre. induction heap as [| d heap IH]; intros pre; cbn.
  - reflexivity.
  - rewrite list_lookup_middle by reflexivity. cbn. f_equal.
    specialize (IH (pre ++ [d])).
    rewrite <- app_assoc, length_app in IH. cbn in IH.
    rewrite Nat.add_1_r in IH. exact IH.
Qed.

Lemma deref_all (heap : list (PropDict F)) :
  deref heap (seq 0 (length heap)) = heap.
Proof. exact (deref_shift [] heap). Qed.

Lemma to_dict_fields (filtered : list (EnrichedProp F)) :
  fields <$> to_dict filtered = filtered.
Proof.
  unfold to_dict. rewrite <- list_fmap_compose. apply list_fmap_id.
Qed.

Lemma to_dict_lookup (filtered : list (EnrichedProp F)) (i : nat) :
  to_dict filtered !! i = (λ e, mkDict e None) <$> filtered !! i.
Proof. unfold to_dict. apply list_lookup_fmap. Qed.

(** *** [get_llm_explanation] *)

Lemma get_llm_explanation_unconfigured (prop : PropDict F) (t : list Event) :
  unconfigured env → get_llm_explanation env prop t = (not_configured_msg, t).
Proof.
  unfold get_llm_explanation. intros [-> | ->]; reflexivity.
Qed.

Lemma get_llm_explanation_configured (base : string) (prop : PropDict F) (t : list Event) :
  configured env base →
  let payload := chat_payload env (format_prompt env (fields prop)) in
  get_llm_explanation env prop t =
  match requests_post env t (endpoint base) payload with
  | Completion content =>
      (str_strip env content, t ++ [EvPost (endpoint base) payload 20])
  | PostRaised e | StatusRaised e | JsonRaised e | ShapeRaised e =>
      (error_msg,
       (t ++ [EvPost (endpoint base) payload 20])
         ++ [EvLog WARNING ("vLLM call failed: " ++ e)])
  end.
Proof.
  intros [Hurl Hbase] payload. unfold get_llm_explanation. rewrite Hurl.
  destruct base as [| c base]; [contradiction|].
  rewrite io_bind_run. unfold post. rewrite io_bind_run. cbn.
  fold payload.
  destruct (requests_post env t _ payload); reflexivity.
Qed.

End AppFacts.

Section LoopFacts.
Context {F : Type} `{PyNum F} (env : Env F).

(** *** The explanation loop *)

Lemma explain_loop_step (r : nat) (refs : list nat) (heap : list (PropDict F))
    (t : list Event) (d : PropDict F) :
  heap !! r = Some d →
  explain_loop env (r :: refs) heap t =
  explain_loop env refs
    (<[r := mkDict (fields d) (Some (get_llm_explanation env d t).1)]> heap)
    (get_llm_explanation env d t).2.
Proof.
  intros Hr. cbn [explain_loop]. rewrite Hr. now rewrite io_bind_run.
Qed.

Lemma explain_loop_skip (r : nat) (refs : list nat) (heap : list (PropDict F))
    (t : list Event) :
  heap !! r = None → explain_loop env (r :: refs) heap t = explain_loop env refs heap t.
Proof. intros Hr. cbn [explain_loop]. now rewrite Hr. Qed.

Lemma explain_loop_length (refs : list nat) :
  ∀ (heap : list (PropDict F)) (t : list Event),
    length (explain_loop env refs heap t).1 = length heap.
Proof.
  induction refs as [| r refs IH]; intros heap t; [reflexivity|].
  destruct (heap !! r) as [d|] eqn:Hr.
  - rewrite (explain_loop_step _ _ _ _ _ Hr), IH. apply length_insert.
  - rewrite (explain_loop_skip _ _ _ _ Hr). apply IH.
Qed.

(** The loop writes no key but [llm_explanation]. *)
Lemma explain_loop_fields (refs : list nat) :
  ∀ (heap : list (PropDict F)) (t : list Event),
    fields <$> (explain_loop env refs heap t).1 = fields <$> heap.
Proof.
  induction refs as [| r refs IH]; intros heap t; [reflexivity|].
  destruct (heap !! r) as [d|] eqn:Hr.
  - rewrite (explain_loop_step _ _ _ _ _ Hr), IH, list_fmap_insert. cbn.
    apply list_insert_id. rewrite list_lookup_fmap, Hr. reflexivity.
  - rewrite (explain_loop_skip _ _ _ _ Hr). apply IH.
Qed.

(** A dict that is not in the list of the loop is left as it was. *)
Lemma explain_loop_other (refs : list nat) (i : nat) :
  i ∉ refs →
  ∀ (heap : list (PropDict F)) (t : list Event),
    (explain_loop env refs heap t).1 !! i = heap !! i.
Proof.
  induction refs as [| r refs IH]; intros Hi heap t; [reflexivity|].
  apply not_elem_of_cons in Hi as [Hne Hi].
  destruct (heap !! r) as [d|] eqn:Hr.
  - rewrite (explain_loop_step _ _ _ _ _ Hr), (IH Hi).
    apply list_lookup_insert_ne. congruence.
  - rewrite (explain_loop_skip _ _ _ _ Hr). apply (IH Hi).
Qed.

(** A dict that is in the list gets the text that [get_llm_explanation]
    returned for it. *)
Lemma explain_loop_explained (refs : list nat) (i : nat) :
  NoDup refs → i ∈ refs →
  ∀ (heap : list (PropDict F)) (t : list Event) (d : PropDict F),
    heap !! i = Some d →
    ∃ t0, (explain_loop env refs heap t).1 !! i
          = Some (mkDict (fields d) (Some (get_llm_explanation env d t0).1)).
Proof.
  induction refs as [| r refs IH]; intros Hnd Hi heap t d Hd.
  - apply elem_of_nil in Hi. contradiction.
  - apply NoDup_cons in Hnd as [Hr Hnd].
    destruct (decide (i = r)) as [-> | Hne].
    + rewrite (explain_loop_step _ _ _ _ _ Hd), (explain_loop_other _ _ Hr).
      exists t. apply list_lookup_insert_eq. now apply lookup_lt_Some in Hd.
    + apply elem_of_cons in Hi as [? | Hi]; [contradiction|].
      destruct (heap !! r) as [d'|] eqn:Hr'.
      * rewrite (explain_loop_step _ _ _ _ _ Hr').
        apply (IH Hnd Hi). rewrite list_lookup_insert_ne by congruence. exact Hd.
      * rewrite (explain_loop_skip _ _ _ _ Hr'). now apply (IH Hnd Hi).
Qed.

(** *** [sorted] rearranges *)

Lemma insert_desc_perm {A} (key : A → F) (x : A) (l : list A) :
  insert_desc key x l ≡ₚ x :: l.
Proof.
  induction l as [| y l IH]; cbn; [reflexivity|].
  destruct (gtb (key y) (key x)); [|reflexivity].
  rewrite IH. apply Permutation_swap.
Qed.

Lemma sorted_desc_perm {A} (key : A → F) (l : list A) :
  sorted_desc key l ≡ₚ l.
Proof.
  induction l as [| x l IH]; cbn; [reflexivity|].
  unfold sorted_desc in IH. now rewrite insert_desc_perm, IH.
Qed.

(** *** After the filter *)

Lemma explain_top_k_run (heap : list (PropDict F)) (records : list nat) (t : list Event) :
  let top := take (Nat.min 3 (length (sorted_desc (ev_at heap) records)))
                  (sorted_desc (ev_at heap) records) in
  let t1 := t ++ [EvLog INFO "Generating LLM explanations via vLLM..."] in
  explain_top_k env heap records t
  = ((explain_loop env top heap t1).1, top, (explain_loop env top heap t1).2).
Proof.
  intros top t1. unfold explain_top_k. rewrite io_bind_run, emit_run. cbn [fst snd].
  rewrite io_bind_run. reflexivity.
Qed.

Lemma select_and_explain_plain (min_ev : F) (enriched : list (EnrichedProp F))
    (t : list Event) :
  select_and_explain env min_ev false enriched t
  = (to_dict (filter_ev min_ev enriched), t).
Proof.
  unfold select_and_explain. cbn [andb]. now rewrite deref_all.
Qed.

Lemma select_and_explain_nothing (min_ev : F) (explain : bool)
    (enriched : list (EnrichedProp F)) (t : list Event) :
  filter_ev min_ev enriched = [] →
  select_and_explain env min_ev explain enriched t = ([], t).
Proof.
  intros Hnone. unfold select_and_explain. rewrite Hnone. cbn.
  rewrite andb_false_r. reflexivity.
Qed.

Lemma select_and_explain_explained (min_ev : F) (enriched : list (EnrichedProp F))
    (t : list Event) :
  filter_ev min_ev enriched ≠ [] →
  let heap := to_dict (filter_ev min_ev enriched) in
  let views := explain_top_k env heap (seq 0 (length heap)) t in
  select_and_explain env min_ev true enriched t = (views.1.1, views.2).
Proof.
  intros Hsome heap views. unfold select_and_explain. fold heap.
  rewrite bool_decide_eq_false_2.
  2:{ intros Hseq. apply Hsome. apply (f_equal length) in Hseq.
      rewrite length_seq in Hseq. unfold heap, to_dict in Hseq.
      rewrite length_fmap in Hseq. now apply nil_length_inv. }
  cbn [andb negb]. rewrite io_bind_run. fold views. cbn.
  f_equal. subst views. rewrite explain_top_k_run. cbn [fst snd].
  match goal with
  | |- deref ?h _ = _ =>
      assert (Hlen : length h = length heap) by apply explain_loop_length;
      set (heap' := h) in *; clearbody heap'
  end.
  rewrite <- Hlen. apply deref_all.
Qed.

(** Whatever [explain] is, the returned records are the rows that passed
    the filter, in their order. *)
Lemma select_and_explain_fields (min_ev : F) (explain : bool)
    (enriched : list (EnrichedProp F)) (t : list Event) :
  fields <$> (select_and_explain env min_ev explain enriched t).1
  = filter_ev min_ev enriched.
Proof.
  destruct explain.
  - destruct (decide (filter_ev min_ev enriched = [])) as [Hnone | Hsome].
    + rewrite (select_and_explain_nothing _ _ _ _ Hnone). now rewrite Hnone.
    + rewrite (select_and_explain_explained _ _ _ Hsome), explain_top_k_run.
      cbn [fst snd]. rewrite explain_loop_fields. apply to_dict_fields.
  - rewrite select_and_explain_plain. apply to_dict_fields.
Qed.

(** *** [analyze] *)

Lemma analyze_bad_min_ev (arg_min_ev arg_explain : option string) (t : list Event) :
  float_of_str env (default "0.0"%string arg_min_ev) = None →
  analyze env arg_min_ev arg_explain t = (Error400 "min_ev must be a number", t).
Proof. intros Hparse. unfold analyze. now rewrite Hparse. Qed.

Lemma analyze_enriched (arg_min_ev arg_explain : option string) (t : list Event)
    (min_ev : F) (df : list (PropRecord F)) (enriched : list (EnrichedProp F)) :
  float_of_str env (default "0.0"%string arg_min_ev) = Some min_ev →
  read_csv env (csv_path env) = CsvFrame df →
  enrich_props df = Some enriched →
  let explain := truthy (lower (default "false"%string arg_explain)) in
  let result := select_and_explain env min_ev explain enriched
                  (t ++ [EvReadCsv (csv_path env)]) in
  analyze env arg_min_ev arg_explain t = (Json200 result.1, result.2).
Proof.
  intros Hparse Hcsv Henrich explain result. unfold analyze. rewrite Hparse.
  rewrite io_bind_run. unfold load_props. rewrite io_bind_run, emit_run.
  cbn [fst snd mret IO_ret io_ret]. rewrite Hcsv, Henrich.
  rewrite io_bind_run. reflexivity.
Qed.

End LoopFacts.

(** ** [sorted] in exact arithmetic: descending and stable *)

Section SortedFacts.
Context {A : Type} (key : A → Q).

Lemma insert_desc_sorted (x : A) (l : list A) :
  StronglySorted (λ a b, key b <= key a) l →
  StronglySorted (λ a b, key b <= key a) (insert_desc key x l).
Proof.
  induction l as [| y l IH]; intros Hl; cbn [insert_desc].
  - repeat constructor.
  - apply StronglySorted_cons in Hl as [Hy Hl].
    destruct (gtb (key y) (key x)) eqn:E.
    + apply Q_gtb_spec in E. apply StronglySorted_cons. split; [|now apply IH].
      rewrite insert_desc_perm. constructor; [lra | exact Hy].
    + apply Q_gtb_false in E. apply StronglySorted_cons. split.
      * constructor; [exact E|].
        eapply Forall_impl; [exact Hy|]. cbn. intros z Hz. lra.
      * apply StronglySorted_cons. split; assumption.
Qed.

Lemma sorted_desc_sorted (l : list A) :
  StronglySorted (λ a b, key b <= key a) (sorted_desc key l).
Proof.
  induction l as [| x l IH]; cbn.
  - constructor.
  - apply insert_desc_sorted, IH.
Qed.

(** Records with equal keys keep their relative order. *)
Lemma insert_desc_stable (c : Q) (x : A) (l : list A) :
  List.filter (λ a, Qeq_bool (key a) c) (insert_desc key x l)
  = List.filter (λ a, Qeq_bool (key a) c) (x :: l).
Proof.
  induction l as [| y l IH]; [reflexivity|].
  cbn [insert_desc]. destruct (gtb (key y) (key x)) eqn:E; [|reflexivity].
  apply Q_gtb_spec in E. cbn [List.filter] in IH |- *. rewrite IH.
  destruct (Qeq_bool (key x) c) eqn:Ex, (Qeq_bool (key y) c) eqn:Ey; try reflexivity.
  apply Qeq_bool_iff in Ex, Ey. lra.
Qed.

Lemma sorted_desc_stable (c : Q) (l : list A) :
  List.filter (λ a, Qeq_bool (key a) c) (sorted_desc key l)
  = List.filter (λ a, Qeq_bool (key a) c) l.
Proof.
  induction l as [| x l IH]; [reflexivity|].
  cbn [sorted_desc foldr]. rewrite insert_desc_stable. cbn [List.filter].
  unfold sorted_desc in IH. now rewrite IH.
Qed.

End SortedFacts.

(** ** The explained subset, in exact arithmetic *)

Lemma ev_at_to_dict {F} `{PyNum F} (filtered : list (EnrichedProp F)) (i : nat)
    (e : EnrichedProp F) :
  filtered !! i = Some e → ev_at (to_dict filtered) i = ev_per_dollar e.
Proof.
  intros Hi. unfold ev_at. rewrite to_dict_lookup, Hi. reflexivity.
Qed.

Lemma deref_lookup {F} (heap : list (PropDict F)) (refs : list nat) :
  Forall (λ r, r < length heap)%nat refs →
  ∀ (j r : nat), refs !! j = Some r → deref heap refs !! j = heap !! r.
Proof.
  unfold deref. induction refs as [| r0 refs IH]; intros Hvalid j r Hj.
  - discriminate.
  - apply Forall_cons in Hvalid as [Hr0 Hvalid].
    destruct (lookup_lt_is_Some_2 heap r0 Hr0) as [d Hd].
    cbn. rewrite Hd. cbn. destruct j as [| j]; cbn in *.
    + injection Hj as <-. now rewrite Hd.
    + now apply IH.
Qed.

Section TopK.
Context (min_ev : Q) (enriched : list (EnrichedProp Q)).

Let filtered := filter_ev min_ev enriched.
Let heap := to_dict filtered.
Let records_sorted := sorted_desc (ev_at heap) (seq 0 (length heap)).
Let top := take (Nat.min 3 (length records_sorted)) records_sorted.

Lemma heap_length : length heap = length filtered.
Proof. unfold heap, to_dict. apply length_fmap. Qed.

Lemma records_sorted_perm : records_sorted ≡ₚ seq 0 (length filtered).
Proof. unfold records_sorted. rewrite sorted_desc_perm, heap_length. reflexivity. Qed.

Lemma top_length : length top = Nat.min 3 (length filtered).
Proof.
  unfold top. rewrite length_take, records_sorted_perm, length_seq. lia.
Qed.

Lemma top_NoDup : NoDup top.
Proof.
  unfold top. eapply sublist_NoDup; [|apply sublist_take].
  rewrite records_sorted_perm. apply NoDup_seq.
Qed.

Lemma top_valid (i : nat) : i ∈ top → (i < length filtered)%nat.
Proof.
  unfold top. intros Hi.
  assert (Hin : i ∈ records_sorted).
  { eapply elem_of_sublist; [exact Hi | apply sublist_take]. }
  rewrite records_sorted_perm in Hin. apply elem_of_seq in Hin. lia.
Qed.

Lemma top_sorted :
  StronglySorted (λ a b, ev_at heap b <= ev_at heap a) top.
Proof.
  unfold top. eapply StronglySorted_app_1_l.
  rewrite take_drop. apply sorted_desc_sorted.
Qed.

Lemma top_highest (a b : nat) :
  a ∈ top → (b < length filtered)%nat → b ∉ top → ev_at heap b <= ev_at heap a.
Proof.
  intros Ha Hb Hnb.
  assert (Hsorted := sorted_desc_sorted (ev_at heap) (seq 0 (length heap))).
  fold records_sorted in Hsorted.
  rewrite <- (take_drop (Nat.min 3 (length records_sorted)) records_sorted) in Hsorted.
  fold top in Hsorted.
  apply (StronglySorted_app_1_elem_of _ _ _ _ _ Hsorted Ha).
  assert (Hin : b ∈ records_sorted).
  { rewrite records_sorted_perm. apply elem_of_seq. lia. }
  rewrite <- (take_drop (Nat.min 3 (length records_sorted)) records_sorted) in Hin.
  fold top in Hin. apply elem_of_app in Hin as [? | ?]; [contradiction | assumption].
Qed.

End TopK.

(** C6. With [explain] true and a non-empty filtered set, the loop runs
    over [top], the first [min(3, n)] addresses of the copy sorted by
    descending EV. The returned list is the final heap in the original
    order: its record at position [i] is the filtered row [i], with an
    [llm_explanation] (the text [get_llm_explanation] returned for that
    row) exactly when [i] is in [top]. The two views read the same dicts:
    rank [j] of the sorted view is the returned record at position
    [top[j]]. *)
Theorem top_k_explained (env : Env Q) (min_ev : Q) (enriched : list (EnrichedProp Q))
    (t : list Event) :
  filter_ev min_ev enriched ≠ [] →
  ∃ (returned : list (PropDict Q)) (top : list nat) (t' : list Event),
    let filtered := filter_ev min_ev enriched in
    let ev := ev_at (to_dict filtered) in
    explain_top_k env (to_dict filtered) (seq 0 (length (to_dict filtered))) t
      = (returned, top, t') ∧
    select_and_explain env min_ev true enriched t = (returned, t') ∧
    length top = Nat.min 3 (length filtered) ∧
    NoDup top ∧
    StronglySorted (λ a b, ev b <= ev a) top ∧
    (∀ a b, a ∈ top → (b < length filtered)%nat → b ∉ top → ev b <= ev a) ∧
    length returned = length filtered ∧
    (∀ i e, filtered !! i = Some e →
       ev i = ev_per_dollar e ∧
       ∃ d, returned !! i = Some d ∧ fields d = e ∧
            (i ∈ top →
               ∃ t0, llm_explanation d
                     = Some (get_llm_explanation env (mkDict e None) t0).1) ∧
            (i ∉ top → llm_explanation d = None)) ∧
    (∀ j r, top !! j = Some r → deref returned top !! j = returned !! r).
Proof.
  intros Hsome.
  pose proof (select_and_explain_explained env min_ev enriched t Hsome) as Hsel.
  cbv zeta in Hsel. rewrite explain_top_k_run in Hsel. cbn [fst snd] in Hsel.
  pose proof (explain_top_k_run env (to_dict (filter_ev min_ev enriched))
                (seq 0 (length (to_dict (filter_ev min_ev enriched)))) t) as Hrun.
  cbv zeta in Hrun.
  set (filtered := filter_ev min_ev enriched) in *.
  set (heap := to_dict filtered) in *.
  set (top := take _ (sorted_desc (ev_at heap) (seq 0 (length heap)))) in *.
  set (t1 := t ++ _) in *.
  exists (explain_loop env top heap t1).1, top, (explain_loop env top heap t1).2.
  cbv zeta. fold filtered. fold heap.
  assert (Hlen : length (explain_loop env top heap t1).1 = length filtered).
  { rewrite explain_loop_length. apply heap_length. }
  repeat split.
  - exact Hrun.
  - exact Hsel.
  - apply top_length.
  - apply top_NoDup.
  - apply top_sorted.
  - apply top_highest.
  - exact Hlen.
  - now apply ev_at_to_dict.
  - assert (Hd : heap !! i = Some (mkDict e None)).
    { unfold heap. rewrite to_dict_lookup, H. reflexivity. }
    destruct (decide (i ∈ top)) as [Hin | Hout].
    + destruct (explain_loop_explained env top i (top_NoDup min_ev enriched) Hin
                  heap t1 _ Hd) as [t0 Ht0].
      eexists. split; [exact Ht0|]. cbn. repeat split.
      * intros _. exists t0. reflexivity.
      * intros Hno. contradiction.
    + exists (mkDict e None). rewrite (explain_loop_other env top i Hout). cbn.
      repeat split; [exact Hd | intros Hin; contradiction].
  - intros j r Hj. apply deref_lookup; [|exact Hj].
    apply Forall_forall. intros r' Hr'. rewrite Hlen.
    now apply (top_valid min_ev enriched).
Qed.

Lemma top_k_explained_witness :
  filter_ev 0 demo_enriched ≠ [] ∧
  ∃ (returned : list (PropDict Q)) (top : list nat) (t' : list Event),
    select_and_explain (demo_env None) 0 true demo_enriched [] = (returned, t') ∧
    length top = Nat.min 3 (length (filter_ev 0 demo_enriched)) ∧
    length returned = length (filter_ev 0 demo_enriched).
Proof.
  assert (H1 : filter_ev 0 demo_enriched ≠ []) by (vm_compute; discriminate).
  split; [exact H1|].
  destruct (top_k_explained (demo_env None) 0 demo_enriched [] H1)
    as (returned & top & t' & _ & Hsel & Hk & _ & _ & _ & Hlen & _).
  exists returned, top, t'. auto.
Defined.

(** C5. The records that [analyze] returns after the filter are, whatever
    [explain] is, the enriched rows whose [ev_per_dollar >= min_ev] holds,
    in their original relative order: a subsequence of the enriched table
    that holds every row passing the test and no other, and the greatest
    such subsequence. ([>=] is the comparison of the arithmetic; in exact
    arithmetic it is [min_ev <= ev_per_dollar], see [Q_geb_spec].) *)
Theorem filter_keeps_exactly {F : Type} `{PyNum F} (env : Env F) (min_ev : F)
    (explain : bool) (enriched : list (EnrichedProp F)) (t : list Event) :
  let kept := fields <$> (select_and_explain env min_ev explain enriched t).1 in
  kept = filter_ev min_ev enriched ∧
  kept `sublist_of` enriched ∧
  (∀ e, e ∈ kept ↔ e ∈ enriched ∧ geb (ev_per_dollar e) min_ev = true) ∧
  (∀ other, other `sublist_of` enriched →
            Forall (λ e, geb (ev_per_dollar e) min_ev = true) other →
            other `sublist_of` kept).
Proof.
  cbv zeta. rewrite select_and_explain_fields. split; [reflexivity|]. split; [|split].
  - apply filter_ev_sublist.
  - apply filter_ev_elem.
  - apply filter_ev_greatest.
Qed.

Lemma filter_ev_exact (min_ev : Q) (enriched : list (EnrichedProp Q)) (e : EnrichedProp Q) :
  e ∈ filter_ev min_ev enriched ↔ e ∈ enriched ∧ min_ev <= ev_per_dollar e.
Proof. rewrite filter_ev_elem, Q_geb_spec. reflexivity. Qed.

(** ** The explanation backend *)

Lemma explain_loop_unconfigured {F : Type} `{PyNum F} (env : Env F) (refs : list nat) :
  unconfigured env →
  ∀ (heap : list (PropDict F)) (t : list Event), (explain_loop env refs heap t).2 = t.
Proof.
  intros Hno. induction refs as [| r refs IH]; intros heap t; [reflexivity|].
  destruct (heap !! r) as [d|] eqn:Hr.
  - rewrite (explain_loop_step _ _ _ _ _ _ Hr), IH.
    now rewrite (get_llm_explanation_unconfigured env d t Hno).
  - rewrite (explain_loop_skip _ _ _ _ _ Hr). apply IH.
Qed.

(** C7. [get_llm_explanation] without a configured URL returns the fixed
    "not configured" text and leaves the trace as it is (no request is
    sent); when the URL is configured and the [try] block raises, at any
    of its statements, it returns the fixed "error" text. Whatever the
    backend does, a request whose [min_ev] parses, whose CSV loads and
    whose rows enrich is answered with status 200 and the filtered rows;
    without a configured URL its trace holds no request. *)
Theorem backend_failures_recovered {F : Type} `{PyNum F} (env : Env F)
    (arg_min_ev arg_explain : option string) (min_ev : F)
    (df : list (PropRecord F)) (enriched : list (EnrichedProp F))
    (prop : PropDict F) (t : list Event) :
  float_of_str env (default "0.0"%string arg_min_ev) = Some min_ev →
  read_csv env (csv_path env) = CsvFrame df →
  enrich_props df = Some enriched →
  (unconfigured env → get_llm_explanation env prop t = (not_configured_msg, t)) ∧
  (∀ base, configured env base →
           is_failure (requests_post env t (endpoint base)
                         (chat_payload env (format_prompt env (fields prop)))) →
           (get_llm_explanation env prop t).1 = error_msg) ∧
  (∃ records t',
     run (analyze env arg_min_ev arg_explain) = (Json200 records, t') ∧
     fields <$> records = filter_ev min_ev enriched ∧
     (unconfigured env → List.filter is_post t' = [])).
Proof.
  intros Hparse Hcsv Henrich. split; [|split].
  - apply get_llm_explanation_unconfigured.
  - intros base Hbase Hfail.
    rewrite (get_llm_explanation_configured env base prop t Hbase).
    destruct (requests_post env t _ _); try reflexivity. contradiction.
  - pose proof (analyze_enriched env arg_min_ev arg_explain [] min_ev df enriched
                  Hparse Hcsv Henrich) as Hrun.
    cbv zeta in Hrun. unfold run. rewrite Hrun. eexists _, _.
    split; [reflexivity|]. split; [apply select_and_explain_fields|].
    intros Hno. cbn [app].
    destruct (truthy (lower (default "false"%string arg_explain))).
    + destruct (decide (filter_ev min_ev enriched = [])) as [Hnone | Hsome].
      * now rewrite (select_and_explain_nothing _ _ _ _ _ Hnone).
      * rewrite (select_and_explain_explained _ _ _ _ Hsome), explain_top_k_run.
        cbn [fst snd]. now rewrite (explain_loop_unconfigured env _ Hno).
    + now rewrite select_and_explain_plain.
Qed.

(** C8. A [min_ev] that [float()] rejects is answered with status 400 and
    the message "min_ev must be a number"; the trace of the request is
    empty: no CSV was read, nothing was enriched, filtered or explained. *)
Theorem bad_min_ev_fails_fast {F : Type} `{PyNum F} (env : Env F)
    (min_ev_str : string) (arg_explain : option string) :
  float_of_str env min_ev_str = None →
  run (analyze env (Some min_ev_str) arg_explain)
  = (Error400 "min_ev must be a number", []).
Proof.
  intros Hparse. unfold run. now apply analyze_bad_min_ev.
Qed.

Lemma bad_min_ev_fails_fast_witness :
  float_of_str (demo_env None) "abc" = None ∧
  run (analyze (demo_env None) (Some "abc"%string) (Some "true"%string))
  = (Error400 "min_ev must be a number", []).
Proof.
  assert (H1 : float_of_str (demo_env None) "abc" = None) by reflexivity.
  split; [exact H1 | exact (bad_min_ev_fails_fast (demo_env None) "abc" _ H1)].
Defined.

Lemma backend_failures_recovered_witness :
  (float_of_str (demo_env (Some "http://llm:8000//"%string))
     (default "0.0"%string (Some "-1"%string)) = Some (- (1)) ∧
   read_csv (demo_env (Some "http://llm:8000//"%string))
     (csv_path (demo_env (Some "http://llm:8000//"%string))) = CsvFrame demo_rows ∧
   enrich_props demo_rows = Some demo_rows_enriched) ∧
  (get_llm_explanation (demo_env (Some "http://llm:8000//"%string)) demo_prop []).1
  = error_msg ∧
  ∃ records t',
    run (analyze (demo_env (Some "http://llm:8000//"%string))
           (Some "-1"%string) (Some "Yes"%string)) = (Json200 records, t') ∧
    fields <$> records = filter_ev (- (1)) demo_rows_enriched.
Proof.
  pose (env := demo_env (Some "http://llm:8000//"%string)).
  assert (H1 : float_of_str env (default "0.0"%string (Some "-1"%string)) = Some (- (1)))
    by reflexivity.
  assert (H2 : read_csv env (csv_path env) = CsvFrame demo_rows) by reflexivity.
  assert (H3 : enrich_props demo_rows = Some demo_rows_enriched) by reflexivity.
  destruct (backend_failures_recovered env (Some "-1"%string) (Some "Yes"%string)
              (- (1)) demo_rows demo_rows_enriched demo_prop [] H1 H2 H3)
    as (_ & Herr & records & t' & Hrun & Hfields & _).
  split; [auto|]. split.
  - apply (Herr "http://llm:8000//"%string).
    + split; [reflexivity | discriminate].
    + exact I.
  - exists records, t'. auto.
Defined.

(** ** The constant expected value *)

Lemma pipeline_ev_constant_l (o p ev : Q) :
  ¬ o == 0 →
  american_to_prob o = Some p →
  compute_ev_per_dollar (0.98 * p) o = Some ev →
  ev == - (1 # 50).
Proof.
  intros Ho Hp Hev. destruct (Q_nonzero_cases o Ho) as [Hpos | Hneg].
  - rewrite american_to_prob_pos in Hp by assumption. injection Hp as <-.
    rewrite (compute_ev_per_dollar_unfold _ _ _ (win_return_pos o Hpos)) in Hev.
    injection Hev as <-. apply (pipeline_ev_pos o Hpos).
  - rewrite american_to_prob_nonpos in Hp by lra. injection Hp as <-.
    rewrite (compute_ev_per_dollar_unfold _ _ _ (win_return_neg o Hneg)) in Hev.
    injection Hev as <-. apply (pipeline_ev_neg o Hneg).
Qed.

Lemma enrich_row_ev (r : PropRecord Q) (e : EnrichedProp Q) :
  ¬ american_odds r == 0 → enrich_row r = Some e → ev_per_dollar e == - (1 # 50).
Proof.
  intros Ho Hrow.
  destruct (enrich_row_fields r e Hrow) as (_ & _ & _ & Hp & Ht & Hev).
  rewrite Ht in Hev. exact (pipeline_ev_constant _ _ _ Ho Hp Hev).
Qed.

Lemma enrich_props_ev (df : list (PropRecord Q)) (enriched : list (EnrichedProp Q)) :
  Forall (λ r, ¬ american_odds r == 0) df →
  enrich_props df = Some enriched →
  Forall (λ e, ev_per_dollar e == - (1 # 50)) enriched.
Proof.
  intros Hdf Hout. apply enrich_props_rows in Hout.
  induction Hout as [| r e df enriched Hrow _ IH]; [constructor|].
  apply Forall_cons in Hdf as [Hr Hdf].
  constructor; [exact (enrich_row_ev r e Hr Hrow) | exact (IH Hdf)].
Qed.

Lemma filter_ev_none (min_ev : Q) (enriched : list (EnrichedProp Q)) :
  Forall (λ e, ev_per_dollar e < min_ev) enriched → filter_ev min_ev enriched = [].
Proof.
  unfold filter_ev. induction 1 as [| e l He _ IH]; [reflexivity|].
  cbn [List.filter]. destruct (geb (ev_per_dollar e) min_ev) eqn:E; [|exact IH].
  apply Q_geb_spec in E. lra.
Qed.

(** ** The order of binary64 *)

(** [SFcompare] is the lexicographic order of sign, exponent and mantissa:
    it composes. *)
Lemma SFcompare_trans (a b c : spec_float) (x y : comparison) :
  SFcompare a b = Some x → SFcompare b c = Some y → x ≠ Gt → y ≠ Gt →
  SFcompare a c = Some (match x, y with Eq, Eq => Eq | _, _ => Lt end).
Proof.
  destruct a as [sa | sa | | sa ma ea], b as [sb | sb | | sb mb eb],
           c as [sc | sc | | sc mc ec]; cbn;
    try discriminate;
    repeat match goal with
           | s : bool |- _ => destruct s
           end; cbn;
    change (Pos.compare_cont Eq) with Pos.compare;
    intros Hx Hy Hxg Hyg;
    try (injection Hx as <-); try (injection Hy as <-);
    try discriminate; try congruence; try reflexivity;
    split_compare; cbn in *; subst; try congruence; try lia.
Qed.

Lemma SFcompare_refl (a : spec_float) (x : comparison) :
  SFcompare a a = Some x → x = Eq.
Proof.
  destruct a as [s | s | | s m e]; cbn; try discriminate.
  - now intros [= <-].
  - destruct s; now intros [= <-].
  - rewrite Z.compare_refl. change (Pos.compare_cont Eq) with Pos.compare.
    rewrite Pos.compare_refl. destruct s; now intros [= <-].
Qed.

Lemma SFltb_Some (a b : spec_float) : SFltb a b = true ↔ SFcompare a b = Some Lt.
Proof.
  unfold SFltb. destruct (SFcompare a b) as [[| |]|]; split; congruence.
Qed.

Lemma SFleb_Some (a b : spec_float) :
  SFleb a b = true ↔ ∃ x, SFcompare a b = Some x ∧ x ≠ Gt.
Proof.
  unfold SFleb. destruct (SFcompare a b) as [[| |]|]; split;
    try congruence; try (intros _; eexists; split; [reflexivity | discriminate]);
    intros (x & Hx & Hne); congruence.
Qed.

Lemma float_lt_le_trans (a b c : float) :
  PrimFloat.ltb a b = true → PrimFloat.leb b c = true → PrimFloat.ltb a c = true.
Proof.
  rewrite !ltb_spec, leb_spec, !SFltb_Some, SFleb_Some.
  intros Hab (y & Hbc & Hy).
  rewrite (SFcompare_trans _ _ _ Lt y Hab Hbc); [reflexivity | discriminate | exact Hy].
Qed.

Lemma float_le_lt_trans (a b c : float) :
  PrimFloat.leb a b = true → PrimFloat.ltb b c = true → PrimFloat.ltb a c = true.
Proof.
  rewrite !ltb_spec, leb_spec, !SFltb_Some, SFleb_Some.
  intros (x & Hab & Hx) Hbc.
  rewrite (SFcompare_trans _ _ _ x Lt Hab Hbc); [now destruct x | exact Hx | discriminate].
Qed.

Lemma float_le_trans (a b c : float) :
  PrimFloat.leb a b = true → PrimFloat.leb b c = true → PrimFloat.leb a c = true.
Proof.
  rewrite !leb_spec, !SFleb_Some.
  intros (x & Hab & Hx) (y & Hbc & Hy). eexists. split.
  - exact (SFcompare_trans _ _ _ x y Hab Hbc Hx Hy).
  - destruct x, y; discriminate.
Qed.

Lemma float_lt_le (a b : float) :
  PrimFloat.ltb a b = true → PrimFloat.leb a b = true.
Proof.
  rewrite ltb_spec, leb_spec, SFltb_Some, SFleb_Some.
  intros Hab. exists Lt. split; [exact Hab | discriminate].
Qed.

Lemma float_lt_not_le (a b : float) :
  PrimFloat.ltb a b = true → PrimFloat.leb b a = false.
Proof.
  intros Hab. destruct (PrimFloat.leb b a) eqn:Hba; [|reflexivity].
  pose proof (float_lt_le_trans a b a Hab Hba) as Haa.
  rewrite ltb_spec, SFltb_Some in Haa.
  apply SFcompare_refl in Haa. discriminate.
Qed.

Lemma SFcompare_diag (b : spec_float) : b ≠ S754_nan → SFcompare b b = Some Eq.
Proof.
  destruct b as [s | s | | s m e]; intros Hb; try congruence.
  - reflexivity.
  - destruct s; reflexivity.
  - destruct s; cbn [SFcompare]; rewrite Z.compare_refl, Pos.compare_cont_refl;
      reflexivity.
Qed.

Lemma float_le_refl (a b : float) :
  PrimFloat.ltb a b = true → PrimFloat.leb b b = true.
Proof.
  rewrite ltb_spec, leb_spec, SFltb_Some, SFleb_Some. intros Hab.
  exists Eq. split; [|discriminate]. apply SFcompare_diag. intros Hb.
  rewrite Hb in Hab. destruct (Prim2SF a); discriminate.
Qed.

(** ** Binary64: the values on integer odds *)

Lemma binary64_fine_positive : holds_on 17 1 binary64_fine = true.
Proof. vm_compute. reflexivity. Qed.

Lemma binary64_fine_negative : holds_on 17 (- 2 ^ 17) binary64_fine = true.
Proof. vm_compute. reflexivity. Qed.

Lemma binary64_fine_integer_odds (z : Z) :
  z ≠ 0%Z → (-100000 <= z <= 100000)%Z → binary64_fine z = true.
Proof.
  intros Hz Hrange. destruct (Z_lt_le_dec z 0) as [Hneg | Hpos].
  - apply (holds_on_spec 17 binary64_fine _ binary64_fine_negative).
    change (2 ^ Z.of_nat 17)%Z with 131072%Z. change (- 2 ^ 17)%Z with (-131072)%Z. lia.
  - apply (holds_on_spec 17 binary64_fine _ binary64_fine_positive).
    change (2 ^ Z.of_nat 17)%Z with 131072%Z. lia.
Qed.

Lemma binary64_fine_parts (z : Z) :
  z ≠ 0%Z → (-100000 <= z <= 100000)%Z →
  ev_near_constant (float_of_Z z) = true ∧ discount_ordered (float_of_Z z) = true ∧
  break_even_near (float_of_Z z) = true ∧ ev_endpoints (float_of_Z z) = true ∧
  next_not_above z = true.
Proof.
  intros Hz Hrange. pose proof (binary64_fine_integer_odds z Hz Hrange) as Hfine.
  unfold binary64_fine in Hfine. rewrite !andb_true_iff in Hfine. tauto.
Qed.

Lemma enrich_row_ev_of_odds {F : Type} `{PyNum F} (r : PropRecord F) (e : EnrichedProp F) :
  enrich_row r = Some e → ev_of_odds (american_odds r) = Some (ev_per_dollar e).
Proof.
  unfold enrich_row, ev_of_odds. intros Hrow.
  destruct (american_to_prob (american_odds r)) as [p|]; [|discriminate].
  cbn in Hrow |- *.
  destruct (compute_ev_per_dollar _ (american_odds r)) as [ev|]; [|discriminate].
  now injection Hrow as <-.
Qed.

Lemma enrich_row_ev_binary64 (r : PropRecord float) (e : EnrichedProp float) :
  integer_odds r → enrich_row r = Some e →
  PrimFloat.ltb ev_low (ev_per_dollar e) = true ∧
  PrimFloat.ltb (ev_per_dollar e) ev_high = true.
Proof.
  intros (z & Hodds & Hz & Hrange) Hrow.
  destruct (binary64_fine_parts z Hz Hrange) as (Hnear & _).
  unfold ev_near_constant in Hnear.
  rewrite <- Hodds, (enrich_row_ev_of_odds r e Hrow) in Hnear.
  now apply andb_true_iff in Hnear.
Qed.

(** The rows of a table of integer odds, enriched in binary64. *)
Lemma enrich_props_near_constant (df : list (PropRecord float)) :
  Forall integer_odds df →
  ∃ enriched,
    enrich_props df = Some enriched ∧
    Forall2 (λ r e, e_player e = player r ∧ e_stat_line e = stat_line r ∧
                    e_american_odds e = american_odds r ∧
                    PrimFloat.ltb ev_low (ev_per_dollar e) = true ∧
                    PrimFloat.ltb (ev_per_dollar e) ev_high = true) df enriched.
Proof.
  intros Hdf. destruct (enrich_props_binary64 df Hdf) as (enriched & Henrich & _).
  exists enriched. split; [exact Henrich|].
  apply enrich_props_rows in Henrich.
  induction Henrich as [| r e df enriched Hrow _ IH]; [constructor|].
  apply Forall_cons in Hdf as [Hr Hdf]. constructor; [|exact (IH Hdf)].
  destruct (enrich_row_fields r e Hrow) as (H1 & H2 & H3 & _).
  destruct (enrich_row_ev_binary64 r e Hr Hrow) as [Hlo Hhi]. auto.
Qed.

Lemma filter_ev_none_binary64 (min_ev : float) (enriched : list (EnrichedProp float)) :
  PrimFloat.leb ev_high min_ev = true →
  Forall (λ e, PrimFloat.ltb (ev_per_dollar e) ev_high = true) enriched →
  filter_ev min_ev enriched = [].
Proof.
  intros Hmin. unfold filter_ev. induction 1 as [| e l He _ IH]; [reflexivity|].
  cbn [List.filter]. change (geb (ev_per_dollar e) min_ev)
    with (PrimFloat.leb min_ev (ev_per_dollar e)).
  now rewrite (float_lt_not_le _ _ (float_lt_le_trans _ _ _ He Hmin)).
Qed.

Lemma filter_ev_all_binary64 (min_ev : float) (enriched : list (EnrichedProp float)) :
  PrimFloat.leb min_ev ev_low = true →
  Forall (λ e, PrimFloat.ltb ev_low (ev_per_dollar e) = true) enriched →
  filter_ev min_ev enriched = enriched.
Proof.
  intros Hmin. unfold filter_ev. induction 1 as [| e l He _ IH]; [reflexivity|].
  cbn [List.filter]. change (geb (ev_per_dollar e) min_ev)
    with (PrimFloat.leb min_ev (ev_per_dollar e)).
  rewrite (float_lt_le _ _ (float_le_lt_trans _ _ _ Hmin He)). now f_equal.
Qed.

(** Every row of a table enriched in exact arithmetic keeps its fields and
    gets the expected value -1/50. *)
Lemma enrich_props_ev_rows (df : list (PropRecord Q)) (enriched : list (EnrichedProp Q)) :
  Forall (λ r, ¬ american_odds r == 0) df →
  enrich_props df = Some enriched →
  Forall2 (λ r e, e_player e = player r ∧ e_stat_line e = stat_line r ∧
                  e_american_odds e = american_odds r ∧
                  ev_per_dollar e == - (1 # 50)) df enriched.
Proof.
  intros Hdf Hout. apply enrich_props_rows in Hout.
  induction Hout as [| r e df enriched Hrow _ IH]; [constructor|].
  apply Forall_cons in Hdf as [Hr Hdf]. constructor; [|exact (IH Hdf)].
  destruct (enrich_row_fields r e Hrow) as (H1 & H2 & H3 & _).
  pose proof (enrich_row_ev r e Hr Hrow). auto.
Qed.

(** C4, as the code has it. In exact arithmetic the three steps compose
    to the constant -1/50: for nonzero odds [o],
    [compute_ev_per_dollar(0.98 * american_to_prob(o), o) = -1/50], and
    every row of an enriched table has that value. The handler computes
    in binary64: on a CSV of nonzero integer odds of magnitude at most
    100,000 every row is enriched with an [ev_per_dollar] strictly
    between -0.02 - 1e-15 and -0.02 + 1e-15, so a [min_ev] of at least
    -0.02 + 1e-15 (the default 0.0 is one) filters every row out and
    [analyze] answers with the empty list. *)
Theorem constant_ev_selects_nothing (o : Q) (exact_df : list (PropRecord Q))
    (env : Env float) (arg_min_ev arg_explain : option string)
    (df : list (PropRecord float)) (min_ev : float) :
  ¬ o == 0 →
  Forall (λ r, ¬ american_odds r == 0) exact_df →
  Forall integer_odds df →
  read_csv env (csv_path env) = CsvFrame df →
  float_of_str env (default "0.0"%string arg_min_ev) = Some min_ev →
  PrimFloat.leb ev_high min_ev = true →
  (∃ p ev, american_to_prob o = Some p ∧
           compute_ev_per_dollar (0.98 * p) o = Some ev ∧
           ev == - (1 # 50)) ∧
  (∃ exact_enriched,
     enrich_props exact_df = Some exact_enriched ∧
     Forall2 (λ r e, e_player e = player r ∧ e_stat_line e = stat_line r ∧
                     e_american_odds e = american_odds r ∧
                     ev_per_dollar e == - (1 # 50)) exact_df exact_enriched) ∧
  (∃ enriched,
     enrich_props df = Some enriched ∧
     Forall2 (λ r e, e_player e = player r ∧ e_stat_line e = stat_line r ∧
                     e_american_odds e = american_odds r ∧
                     PrimFloat.ltb ev_low (ev_per_dollar e) = true ∧
                     PrimFloat.ltb (ev_per_dollar e) ev_high = true) df enriched ∧
     filter_ev min_ev enriched = []) ∧
  (run (analyze env arg_min_ev arg_explain)).1 = Json200 [].
Proof.
  intros Ho Hexact Hdf Hcsv Hparse Hmin.
  destruct (enrich_props_near_constant df Hdf) as (enriched & Henrich & Hrows).
  assert (Hnone : filter_ev min_ev enriched = []).
  { apply (filter_ev_none_binary64 min_ev enriched Hmin).
    clear -Hrows. induction Hrows as [| r e df enriched Hre _ IH]; constructor; tauto. }
  split; [|split; [|split]].
  - destruct (american_to_prob_total o) as [p Hp].
    destruct (compute_ev_per_dollar_total (0.98 * p) o Ho) as [ev Hevo].
    exists p, ev. repeat split; try assumption.
    exact (pipeline_ev_constant_l o p ev Ho Hp Hevo).
  - destruct (enrich_props_nonzero exact_df Hexact) as [exact_enriched Hout].
    exists exact_enriched. split; [exact Hout|].
    exact (enrich_props_ev_rows exact_df exact_enriched Hexact Hout).
  - exists enriched. auto.
  - unfold run.
    rewrite (analyze_enriched env arg_min_ev arg_explain [] min_ev df enriched
               Hparse Hcsv Henrich).
    now rewrite (select_and_explain_nothing _ _ _ _ _ Hnone).
Qed.

Lemma demo64_integer_odds : Forall integer_odds demo64_rows.
Proof.
  repeat constructor.
  - exists 150%Z. repeat split; [discriminate | lia | lia].
  - exists (-110)%Z. repeat split; [discriminate | lia | lia].
  - exists 200%Z. repeat split; [discriminate | lia | lia].
  - exists (-300)%Z. repeat split; [discriminate | lia | lia].
  - exists 120%Z. repeat split; [discriminate | lia | lia].
Defined.

Lemma constant_ev_selects_nothing_witness :
  (¬ 150 == 0 ∧
   Forall (λ r : PropRecord Q, ¬ american_odds r == 0) demo_rows ∧
   Forall integer_odds demo64_rows ∧
   read_csv (demo64_env None) (csv_path (demo64_env None)) = CsvFrame demo64_rows ∧
   float_of_str (demo64_env None) (default "0.0"%string None) = Some 0%float ∧
   PrimFloat.leb ev_high 0 = true) ∧
  (∃ p ev, american_to_prob 150 = Some p ∧
           compute_ev_per_dollar (0.98 * p) 150 = Some ev ∧
           ev == - (1 # 50)) ∧
  (∃ enriched, enrich_props demo64_rows = Some enriched ∧
               filter_ev 0%float enriched = []) ∧
  (run (analyze (demo64_env None) None (Some "true"%string))).1 = Json200 [].
Proof.
  assert (H1 : ¬ 150 == 0) by (intros E; discriminate E).
  assert (H2 : Forall (λ r : PropRecord Q, ¬ american_odds r == 0) demo_rows)
    by (repeat constructor; intros E; discriminate E).
  assert (H3 : Forall integer_odds demo64_rows) by exact demo64_integer_odds.
  assert (H4 : read_csv (demo64_env None) (csv_path (demo64_env None)) = CsvFrame demo64_rows)
    by reflexivity.
  assert (H5 : float_of_str (demo64_env None) (default "0.0"%string None) = Some 0%float)
    by reflexivity.
  assert (H6 : PrimFloat.leb ev_high 0 = true) by reflexivity.
  destruct (constant_ev_selects_nothing 150 demo_rows (demo64_env None) None (Some "true"%string)
              demo64_rows 0%float H1 H2 H3 H4 H5 H6)
    as (Hone & _ & (enriched & Henrich & _ & Hnone) & Hrun).
  split; [auto 7|]. split; [exact Hone|]. split; [|exact Hrun].
  exists enriched. auto.
Defined.

(** C4, as the claim states it, fails on the code. In binary64 the rows of
    odds 150 and -110 get the expected values -0.019999999999999907 and
    -0.020000000000000073: they are not equal, and [analyze] with
    [min_ev = -0.01999999999999995], which is above -0.02, returns the
    first row. *)
Lemma constant_ev_fails_binary64 :
  enrich_props demo64_rows = Some demo64_enriched ∧
  (ev_per_dollar <$> demo64_enriched
   = [(-0.019999999999999907)%float; (-0.020000000000000073)%float;
      (-0.020000000000000018)%float; (-0.020000000000000018)%float;
      (-0.020000000000000018)%float]) ∧
  PrimFloat.eqb (-0.019999999999999907) (-0.020000000000000073) = false ∧
  PrimFloat.ltb (-0.02) (-0.01999999999999995) = true ∧
  float_of_str (demo64_env None) "-0.01999999999999995" = Some (-0.01999999999999995)%float ∧
  (run (analyze (demo64_env None) (Some "-0.01999999999999995"%string) None)).1
  = Json200 (to_dict (take 1 demo64_enriched)).
Proof. repeat split; vm_compute; reflexivity. Qed.

(** In binary64 the expected values are -0.02 only up to rounding (see the
    examples below), but they are below zero on integer odds of realistic
    magnitude: with the default [min_ev = 0.0] the filter keeps no row. *)
Lemma enrich_row_ev_fails {F : Type} `{PyNum F} (min_ev : F) (r : PropRecord F)
    (e : EnrichedProp F) :
  enrich_row r = Some e →
  ev_fails min_ev (american_odds r) = true →
  geb (ev_per_dollar e) min_ev = false.
Proof.
  unfold enrich_row, ev_fails. intros Hrow Hfails.
  destruct (american_to_prob (american_odds r)) as [p|]; [|discriminate].
  cbn in Hrow. destruct (compute_ev_per_dollar _ (american_odds r)) as [ev|];
    [|discriminate].
  injection Hrow as <-. cbn. now apply negb_true_iff in Hfails.
Qed.

Lemma default_min_ev_selects_nothing_binary64 (df : list (PropRecord float)) :
  Forall (λ r, ∃ z, american_odds r = float_of_Z z ∧
                    z ≠ 0%Z ∧ (-100000 <= z <= 100000)%Z) df →
  ∃ enriched, enrich_props df = Some enriched ∧ filter_ev 0%float enriched = [].
Proof.
  intros Hdf. destruct (enrich_props_binary64 df Hdf) as (enriched & Henrich & _).
  exists enriched. split; [exact Henrich|].
  apply enrich_props_rows in Henrich. unfold filter_ev.
  induction Henrich as [| r e df enriched Hrow _ IH]; [reflexivity|].
  apply Forall_cons in Hdf as [(z & Hodds & Hz & Hrange) Hdf].
  cbn [List.filter].
  rewrite (enrich_row_ev_fails 0%float r e Hrow).
  - exact (IH Hdf).
  - rewrite Hodds. exact (binary64_integer_odds_ev z Hz Hrange).
Qed.

(** * Further properties of the numeric pipeline *)

(** X1. The two sides of a line: the implied probabilities of odds [o] and
    [-o] add up to 1 (no vig is modelled). *)
Theorem american_to_prob_complement (o : Q) :
  ¬ o == 0 →
  ∃ p q, american_to_prob o = Some p ∧ american_to_prob (- o) = Some q ∧ p + q == 1.
Proof.
  intros Ho. destruct (Q_nonzero_cases o Ho) as [Hpos | Hneg].
  - exists (100 / (o + 100)), (- - o / (- - o + 100)). repeat split.
    + now apply american_to_prob_pos.
    + apply american_to_prob_nonpos. lra.
    + field. lra.
  - exists (- o / (- o + 100)), (100 / (- o + 100)). repeat split.
    + apply american_to_prob_nonpos. lra.
    + apply american_to_prob_pos. lra.
    + field. lra.
Qed.

Lemma american_to_prob_complement_witness :
  ¬ 150 == 0 ∧
  ∃ p q, american_to_prob 150 = Some p ∧ american_to_prob (- 150) = Some q ∧ p + q == 1.
Proof.
  assert (H1 : ¬ 150 == 0) by (intros E; discriminate E).
  split; [exact H1 | exact (american_to_prob_complement 150 H1)].
Defined.

(** The expected value as a multiple of the edge [p - implied]. *)
Lemma ev_as_edge (p o : Q) :
  ¬ o == 0 →
  ∃ implied ev scale,
    american_to_prob o = Some implied ∧
    compute_ev_per_dollar p o = Some ev ∧
    0 < scale ∧ ev == (p - implied) * scale.
Proof.
  intros Ho. destruct (Q_nonzero_cases o Ho) as [Hpos | Hneg].
  - exists (100 / (o + 100)), (p * (o / 100) + (1 - p) * - (1)), ((o + 100) / 100).
    repeat split.
    + now apply american_to_prob_pos.
    + apply compute_ev_per_dollar_unfold, win_return_pos, Hpos.
    + apply Qlt_shift_div_l; lra.
    + field. lra.
  - exists (- o / (- o + 100)), (p * (100 / - o) + (1 - p) * - (1)), ((- o + 100) / - o).
    repeat split.
    + apply american_to_prob_nonpos. lra.
    + apply compute_ev_per_dollar_unfold, win_return_neg, Hneg.
    + apply Qlt_shift_div_l; lra.
    + field. split; lra.
Qed.

Lemma Qmult_pos_sign (d s : Q) : 0 < s → (0 < d * s ↔ 0 < d) ∧ (d * s == 0 ↔ d == 0).
Proof.
  intros Hs. split; split; intros Hd.
  - destruct (Qlt_le_dec 0 d) as [? | Hle]; [assumption|].
    assert (d * s <= 0 * s) by (apply Qmult_le_compat_r; lra). lra.
  - apply Qmult_lt_0_compat; assumption.
  - apply Qmult_integral in Hd as [? | ?]; [assumption | lra].
  - rewrite Hd. ring.
Qed.

(** X2. Break-even. In exact arithmetic a bet has zero expected value
    exactly when the estimated probability equals the probability implied
    by the odds, and positive expected value exactly when it is above it.
    In binary64 the expected value at the implied probability is within
    1e-15 of zero for nonzero integer odds of magnitude at most 100,000,
    and need not be zero: at odds 150 it is 1.1e-16. *)
Theorem compute_ev_per_dollar_break_even (p o : Q) (z : Z) :
  ¬ o == 0 → z ≠ 0%Z → (-100000 <= z <= 100000)%Z →
  (∃ implied ev,
     american_to_prob o = Some implied ∧
     compute_ev_per_dollar p o = Some ev ∧
     (ev == 0 ↔ p == implied) ∧
     (0 < ev ↔ implied < p)) ∧
  (∃ implied ev : float,
     american_to_prob (float_of_Z z) = Some implied ∧
     compute_ev_per_dollar implied (float_of_Z z) = Some ev ∧
     PrimFloat.ltb (- tiny) ev = true ∧ PrimFloat.ltb ev tiny = true) ∧
  (∃ implied : float,
     american_to_prob 150%float = Some implied ∧
     compute_ev_per_dollar implied 150%float = Some 1.1102230246251565e-16%float).
Proof.
  intros Ho Hz Hrange. split; [|split].
  - destruct (ev_as_edge p o Ho) as (implied & ev & scale & Hp & Hev & Hs & Heq).
    destruct (Qmult_pos_sign (p - implied) scale Hs) as [Hsign Hzero].
    exists implied, ev. repeat split; try assumption.
    + intros H0. rewrite Heq in H0. apply Hzero in H0. lra.
    + intros Hpi. rewrite Heq. apply Hzero. lra.
    + intros H0. rewrite Heq in H0. apply Hsign in H0. lra.
    + intros Hpi. rewrite Heq. apply Hsign. lra.
  - destruct (binary64_fine_parts z Hz Hrange) as (_ & _ & Hnear & _).
    unfold break_even_near in Hnear.
    destruct (american_to_prob (float_of_Z z)) as [implied|]; [|discriminate].
    destruct (compute_ev_per_dollar implied (float_of_Z z)) as [ev|] eqn:Hev;
      [|discriminate].
    apply andb_true_iff in Hnear as [Hlo Hhi]. exists implied, ev. auto.
  - eexists. split; vm_compute; reflexivity.
Qed.

Lemma compute_ev_per_dollar_break_even_witness :
  (¬ -110 == 0 ∧ (-110)%Z ≠ 0%Z ∧ (-100000 <= -110 <= 100000)%Z) ∧
  (∃ implied ev,
     american_to_prob (-110) = Some implied ∧
     compute_ev_per_dollar 0.6 (-110) = Some ev ∧
     (0 < ev ↔ implied < 0.6)) ∧
  (∃ implied ev : float,
     american_to_prob (float_of_Z (-110)) = Some implied ∧
     compute_ev_per_dollar implied (float_of_Z (-110)) = Some ev ∧
     PrimFloat.ltb (- tiny) ev = true ∧ PrimFloat.ltb ev tiny = true).
Proof.
  assert (H1 : ¬ -110 == 0) by (intros E; discriminate E).
  assert (H2 : (-110)%Z ≠ 0%Z) by discriminate.
  assert (H3 : (-100000 <= -110 <= 100000)%Z) by lia.
  split; [auto|].
  destruct (compute_ev_per_dollar_break_even 0.6 (-110) (-110) H1 H2 H3)
    as ((implied & ev & Hp & Hev & _ & Hpos) & Hfloat & _).
  split; [|exact Hfloat]. exists implied, ev. auto.
Defined.

(** X3. In exact arithmetic the win return of nonzero odds is positive, the
    expected value grows with the estimated probability, and for a
    probability in [0, 1] it lies between the loss of the stake and the
    net return of a win. In binary64, on nonzero integer odds of magnitude
    at most 100,000, the win return is positive and the two ends are met:
    the expected value is -1 at probability 0 and the win return at
    probability 1. *)
Theorem compute_ev_per_dollar_bounds (p1 p2 o : Q) (z : Z) :
  ¬ o == 0 → 0 <= p1 → p1 <= p2 → p2 <= 1 →
  z ≠ 0%Z → (-100000 <= z <= 100000)%Z →
  (∃ win_return ev1 ev2,
     win_return_of o = Some win_return ∧ 0 < win_return ∧
     compute_ev_per_dollar p1 o = Some ev1 ∧
     compute_ev_per_dollar p2 o = Some ev2 ∧
     - (1) <= ev1 ∧ ev1 <= ev2 ∧ ev2 <= win_return) ∧
  (∃ win_return at0 at1 : float,
     win_return_of (float_of_Z z) = Some win_return ∧
     PrimFloat.ltb 0 win_return = true ∧
     compute_ev_per_dollar 0%float (float_of_Z z) = Some at0 ∧
     PrimFloat.eqb at0 (-1) = true ∧
     compute_ev_per_dollar 1%float (float_of_Z z) = Some at1 ∧
     PrimFloat.eqb at1 win_return = true).
Proof.
  intros Ho H0 H12 H1 Hz Hrange. split.
  - assert (Hw : ∃ w, win_return_of o = Some w ∧ 0 < w).
    { destruct (Q_nonzero_cases o Ho) as [Hpos | Hneg].
      - exists (o / 100). split; [now apply win_return_pos|].
        apply Qlt_shift_div_l; lra.
      - exists (100 / - o). split; [now apply win_return_neg|].
        apply Qlt_shift_div_l; lra. }
    destruct Hw as (w & Hw & Hwpos).
    exists w, (p1 * w + (1 - p1) * - (1)), (p2 * w + (1 - p2) * - (1)).
    repeat split; try assumption; try (now apply compute_ev_per_dollar_unfold).
    + assert (0 <= p1 * w) by (apply Qmult_le_0_compat; lra). lra.
    + assert (0 <= (p2 - p1) * (w + 1)) by (apply Qmult_le_0_compat; lra).
      assert (E : p2 * w + (1 - p2) * - (1) - (p1 * w + (1 - p1) * - (1))
                  == (p2 - p1) * (w + 1)) by ring.
      lra.
    + assert (0 <= (1 - p2) * (w + 1)) by (apply Qmult_le_0_compat; lra).
      assert (E : w - (p2 * w + (1 - p2) * - (1)) == (1 - p2) * (w + 1)) by ring.
      lra.
  - destruct (binary64_fine_parts z Hz Hrange) as (_ & _ & _ & Hends & _).
    unfold ev_endpoints in Hends.
    destruct (win_return_of (float_of_Z z)) as [w|]; [|discriminate].
    destruct (compute_ev_per_dollar 0%float (float_of_Z z)) as [at0|]; [|discriminate].
    destruct (compute_ev_per_dollar 1%float (float_of_Z z)) as [at1|]; [|discriminate].
    rewrite !andb_true_iff in Hends. destruct Hends as [[Hw H0'] H1'].
    exists w, at0, at1. auto 7.
Qed.

Lemma compute_ev_per_dollar_bounds_witness :
  (¬ 150 == 0 ∧ 0 <= 0.25 ∧ 0.25 <= 0.5 ∧ 0.5 <= 1 ∧
   150%Z ≠ 0%Z ∧ (-100000 <= 150 <= 100000)%Z) ∧
  (∃ win_return ev1 ev2,
     win_return_of 150 = Some win_return ∧
     compute_ev_per_dollar 0.25 150 = Some ev1 ∧
     compute_ev_per_dollar 0.5 150 = Some ev2 ∧
     - (1) <= ev1 ∧ ev1 <= ev2 ∧ ev2 <= win_return) ∧
  (∃ win_return at0 at1 : float,
     win_return_of (float_of_Z 150) = Some win_return ∧
     compute_ev_per_dollar 0%float (float_of_Z 150) = Some at0 ∧
     PrimFloat.eqb at0 (-1) = true ∧
     compute_ev_per_dollar 1%float (float_of_Z 150) = Some at1 ∧
     PrimFloat.eqb at1 win_return = true).
Proof.
  assert (H1 : ¬ 150 == 0) by (intros E; discriminate E).
  assert (H2 : 0 <= 0.25) by (intros E; discriminate E).
  assert (H3 : 0.25 <= 0.5) by (intros E; discriminate E).
  assert (H4 : 0.5 <= 1) by (intros E; discriminate E).
  assert (H5 : 150%Z ≠ 0%Z) by discriminate.
  assert (H6 : (-100000 <= 150 <= 100000)%Z) by lia.
  split; [auto 7|].
  destruct (compute_ev_per_dollar_bounds 0.25 0.5 150 150 H1 H2 H3 H4 H5 H6)
    as ((w & ev1 & ev2 & Hw & _ & He1 & He2 & Hb) &
        (fw & at0 & at1 & Hfw & _ & H0' & H0eq & H1' & H1eq)).
  split.
  - exists w, ev1, ev2. auto.
  - exists fw, at0, at1. auto 6.
Defined.

Lemma american_to_prob_not_above (z : Z) :
  z ≠ 0%Z → (z + 1)%Z ≠ 0%Z → (-100000 <= z)%Z → (z + 1 <= 100000)%Z →
  ∃ p p' : float,
    american_to_prob (float_of_Z z) = Some p ∧
    american_to_prob (float_of_Z (z + 1)) = Some p' ∧
    PrimFloat.leb p' p = true.
Proof.
  intros Hz Hz' Hlo Hhi.
  destruct (binary64_fine_parts z Hz ltac:(lia)) as (_ & _ & _ & _ & Hnext).
  unfold next_not_above in Hnext.
  destruct (Z.eqb_spec (z + 1) 0) as [E | _]; [contradiction|].
  destruct (american_to_prob (float_of_Z z)) as [p|]; [|discriminate].
  destruct (american_to_prob (float_of_Z (z + 1))) as [p'|]; [|discriminate].
  exists p, p'. auto.
Qed.

Lemma american_to_prob_antitone_steps (n : nat) (z1 : Z) :
  (0 < z1 ∨ z1 + Z.of_nat n < 0)%Z →
  (-100000 <= z1)%Z → (z1 + Z.of_nat n <= 100000)%Z →
  ∃ p1 p2 : float,
    american_to_prob (float_of_Z z1) = Some p1 ∧
    american_to_prob (float_of_Z (z1 + Z.of_nat n)) = Some p2 ∧
    PrimFloat.leb p2 p1 = true.
Proof.
  induction n as [| n IH]; intros Hsign Hlo Hhi.
  - replace (z1 + Z.of_nat 0)%Z with z1 in * by lia.
    pose proof (binary64_integer_odds_bounds z1 ltac:(lia) ltac:(lia)) as Hin.
    unfold prob_inside_unit in Hin.
    destruct (american_to_prob (float_of_Z z1)) as [p|]; [|discriminate].
    apply andb_true_iff in Hin as [Hpos _].
    exists p, p. repeat split. exact (float_le_refl _ _ Hpos).
  - destruct IH as (p1 & p2 & Hp1 & Hp2 & Hle); [lia | lia | lia |].
    destruct (american_to_prob_not_above (z1 + Z.of_nat n))
      as (q & q' & Hq & Hq' & Hstep); [lia | lia | lia | lia |].
    rewrite Hp2 in Hq. injection Hq as <-.
    replace (z1 + Z.of_nat (S n))%Z with (z1 + Z.of_nat n + 1)%Z by lia.
    exists p1, q'. repeat split; try assumption.
    exact (float_le_trans _ _ _ Hstep Hle).
Qed.

(** X4. Longer odds, smaller implied probability. In exact arithmetic
    [american_to_prob] is non-increasing on the positive odds and on the
    negative odds; in binary64 it is non-increasing on the positive and on
    the negative integer odds of magnitude at most 100,000. *)
Theorem american_to_prob_antitone (o1 o2 : Q) (z1 z2 : Z) :
  o1 <= o2 → (0 < o1 ∨ o2 < 0) →
  (z1 <= z2)%Z → (0 < z1 ∨ z2 < 0)%Z → (-100000 <= z1)%Z → (z2 <= 100000)%Z →
  (∃ p1 p2, american_to_prob o1 = Some p1 ∧ american_to_prob o2 = Some p2 ∧ p2 <= p1) ∧
  (∃ p1 p2 : float,
     american_to_prob (float_of_Z z1) = Some p1 ∧
     american_to_prob (float_of_Z z2) = Some p2 ∧
     PrimFloat.leb p2 p1 = true).
Proof.
  intros Hle Hsign Hzle Hzsign Hzlo Hzhi. split.
  - destruct Hsign as [Hpos | Hneg].
    + exists (100 / (o1 + 100)), (100 / (o2 + 100)). repeat split.
      * now apply american_to_prob_pos.
      * apply american_to_prob_pos. lra.
      * apply Qle_shift_div_l; [lra|].
        assert (E : 100 / (o2 + 100) * (o1 + 100)
                    == 100 - 100 * ((o2 - o1) / (o2 + 100))) by (field; lra).
        assert (0 <= (o2 - o1) / (o2 + 100)) by (apply Qle_shift_div_l; lra).
        rewrite E. lra.
    + exists (- o1 / (- o1 + 100)), (- o2 / (- o2 + 100)). repeat split.
      * apply american_to_prob_nonpos. lra.
      * apply american_to_prob_nonpos. lra.
      * apply Qle_shift_div_l; [lra|].
        assert (E : - o2 / (- o2 + 100) * (- o1 + 100)
                    == - o1 - 100 * ((o2 - o1) / (- o2 + 100))) by (field; lra).
        assert (0 <= (o2 - o1) / (- o2 + 100)) by (apply Qle_shift_div_l; lra).
        rewrite E. lra.
  - replace z2 with (z1 + Z.of_nat (Z.to_nat (z2 - z1)))%Z by lia.
    apply american_to_prob_antitone_steps; lia.
Qed.

Lemma american_to_prob_antitone_witness :
  (-300 <= -110 ∧ (0 < -300 ∨ -110 < 0) ∧
   (-300 <= -110)%Z ∧ (0 < -300 ∨ -110 < 0)%Z ∧
   (-100000 <= -300)%Z ∧ (-110 <= 100000)%Z) ∧
  (∃ p1 p2, american_to_prob (-300) = Some p1 ∧ american_to_prob (-110) = Some p2 ∧
            p2 <= p1) ∧
  (∃ p1 p2 : float,
     american_to_prob (float_of_Z (-300)) = Some p1 ∧
     american_to_prob (float_of_Z (-110)) = Some p2 ∧
     PrimFloat.leb p2 p1 = true).
Proof.
  assert (H1 : -300 <= -110) by (intros E; discriminate E).
  assert (H2 : 0 < -300 ∨ -110 < 0) by (right; reflexivity).
  assert (H3 : (-300 <= -110)%Z) by lia.
  assert (H4 : (0 < -300 ∨ -110 < 0)%Z) by lia.
  assert (H5 : (-100000 <= -300)%Z) by lia.
  assert (H6 : (-110 <= 100000)%Z) by lia.
  split; [auto 7 | exact (american_to_prob_antitone (-300) (-110) (-300) (-110)
                            H1 H2 H3 H4 H5 H6)].
Defined.

(** X5. Favourites and underdogs: odds of -100 or shorter imply at least one
    half, odds of +100 or longer at most one half. *)
Theorem american_to_prob_half (o : Q) :
  100 <= o ∨ o <= - (100) →
  ∃ p, american_to_prob o = Some p ∧
       (100 <= o → p <= 1 # 2) ∧ (o <= - (100) → 1 # 2 <= p).
Proof.
  intros [Hdog | Hfav].
  - exists (100 / (o + 100)). split; [apply american_to_prob_pos; lra|]. split.
    + intros _. apply Qle_shift_div_r; lra.
    + intros Hfav. lra.
  - exists (- o / (- o + 100)). split; [apply american_to_prob_nonpos; lra|]. split.
    + intros Hdog. lra.
    + intros _. apply Qle_shift_div_l; lra.
Qed.

Lemma american_to_prob_half_witness :
  (100 <= -110 ∨ -110 <= - (100)) ∧
  ∃ p, american_to_prob (-110) = Some p ∧ (-110 <= - (100) → 1 # 2 <= p).
Proof.
  assert (H1 : 100 <= -110 ∨ -110 <= - (100)) by (right; intros E; discriminate E).
  split; [exact H1|].
  destruct (american_to_prob_half (-110) H1) as (p & Hp & _ & Hfav).
  exists p. auto.
Defined.

(** X6. The probabilities of an enriched row are ordered,
    [0 < true_prob < implied_prob < 1]: in exact arithmetic for every
    table of nonzero odds, and in binary64 for every table of nonzero
    integer odds of magnitude at most 100,000 (not for every float: at odds
    -1e20 the implied probability is 1.0). *)
Theorem enrich_props_probabilities (df : list (PropRecord Q))
    (enriched : list (EnrichedProp Q)) (df64 : list (PropRecord float)) :
  Forall (λ r, ¬ american_odds r == 0) df →
  enrich_props df = Some enriched →
  Forall integer_odds df64 →
  Forall2 (λ r e, e_american_odds e = american_odds r ∧
                  0 < true_prob e ∧ true_prob e < implied_prob e ∧ implied_prob e < 1)
          df enriched ∧
  ∃ enriched64,
    enrich_props df64 = Some enriched64 ∧
    Forall2 (λ r e, e_american_odds e = american_odds r ∧
                    PrimFloat.ltb 0 (true_prob e) = true ∧
                    PrimFloat.ltb (true_prob e) (implied_prob e) = true ∧
                    PrimFloat.ltb (implied_prob e) 1 = true)
            df64 enriched64.
Proof.
  intros Hdf Hout Hdf64. split.
  - apply enrich_props_rows in Hout.
    induction Hout as [| r e df enriched Hrow _ IH]; [constructor|].
    apply Forall_cons in Hdf as [Hr Hdf]. constructor; [|exact (IH Hdf)].
    destruct (enrich_row_fields r e Hrow) as (_ & _ & Hodds & Hp & Ht & _).
    destruct (american_to_prob_bounds _ _ Hr Hp) as [Hp0 Hp1].
    split; [exact Hodds|].
    rewrite Ht. cbn [mul Q_num discount].
    assert (E : implied_prob e * 0.98 == implied_prob e - implied_prob e * (1 # 50))
      by ring.
    assert (0 < implied_prob e * (1 # 50)) by (apply Qmult_lt_0_compat; lra).
    assert (implied_prob e * (1 # 50) < implied_prob e) by lra.
    lra.
  - destruct (enrich_props_binary64 df64 Hdf64) as (enriched64 & Henrich & _).
    exists enriched64. split; [exact Henrich|].
    apply enrich_props_rows in Henrich.
    induction Henrich as [| r e df64 enriched64 Hrow _ IH]; [constructor|].
    apply Forall_cons in Hdf64 as [Hr Hdf64]. constructor; [|exact (IH Hdf64)].
    destruct (enrich_row_fields r e Hrow) as (_ & _ & Hodds & Hp & Ht & _).
    destruct Hr as (z & Hz & Hnz & Hrange).
    destruct (binary64_fine_parts z Hnz Hrange) as (_ & Hord & _).
    pose proof (binary64_integer_odds_bounds z Hnz Hrange) as Hin.
    unfold discount_ordered in Hord. unfold prob_inside_unit in Hin.
    rewrite <- Hz, Hp in Hord, Hin. rewrite <- Ht in Hord.
    apply andb_true_iff in Hord as [Ht0 Htp]. apply andb_true_iff in Hin as [_ Hp1].
    split; [exact Hodds|]. auto.
Qed.

Lemma enrich_props_probabilities_witness :
  (Forall (λ r : PropRecord Q, ¬ american_odds r == 0) demo_rows ∧
   enrich_props demo_rows = Some demo_rows_enriched ∧
   Forall integer_odds demo64_rows) ∧
  Forall2 (λ r e, e_american_odds e = american_odds r ∧
                  0 < true_prob e ∧ true_prob e < implied_prob e ∧ implied_prob e < 1)
          demo_rows demo_rows_enriched ∧
  ∃ enriched64,
    enrich_props demo64_rows = Some enriched64 ∧
    Forall2 (λ r e, e_american_odds e = american_odds r ∧
                    PrimFloat.ltb 0 (true_prob e) = true ∧
                    PrimFloat.ltb (true_prob e) (implied_prob e) = true ∧
                    PrimFloat.ltb (implied_prob e) 1 = true)
            demo64_rows enriched64.
Proof.
  assert (H1 : Forall (λ r : PropRecord Q, ¬ american_odds r == 0) demo_rows)
    by (repeat constructor; intros E; discriminate E).
  assert (H2 : enrich_props demo_rows = Some demo_rows_enriched) by reflexivity.
  assert (H3 : Forall integer_odds demo64_rows) by exact demo64_integer_odds.
  split; [auto | exact (enrich_props_probabilities demo_rows demo_rows_enriched
                          demo64_rows H1 H2 H3)].
Defined.

Lemma enrich_props_zero_odds (df : list (PropRecord Q)) :
  Exists (λ r, american_odds r == 0) df → enrich_props df = None.
Proof.
  intros Hex. apply enrich_props_fails.
  apply Exists_exists in Hex as (r & Hin & Hr). apply Exists_exists.
  exists r. split; [exact Hin | now apply enrich_row_zero].
Qed.

(** X7. [enrich_props] raises exactly when some row has zero odds: one bad row
    loses the whole table. *)
Theorem enrich_props_fails_iff_zero_odds (df : list (PropRecord Q)) :
  enrich_props df = None ↔ Exists (λ r, american_odds r == 0) df.
Proof.
  split; [|apply enrich_props_zero_odds].
  rewrite enrich_props_fails. intros Hex.
  apply Exists_exists in Hex as (r & Hin & Hr). apply Exists_exists.
  exists r. split; [exact Hin|].
  destruct (Qeq_dec (american_odds r) 0) as [? | Hnz]; [assumption|].
  destruct (enrich_row_nonzero r Hnz) as [e He]. congruence.
Qed.

(** * Further properties of the handler *)

Section HandlerFacts.
Context {F : Type} `{PyNum F} (env : Env F).

(** X9. A load error (the file cannot be read or parsed, or it has no
    [american_odds] column) is answered with status 500 and the message of
    the exception; the error is logged and nothing else happens. *)
Theorem analyze_load_failure (arg_min_ev arg_explain : option string)
    (min_ev : F) (e : string) :
  float_of_str env (default "0.0"%string arg_min_ev) = Some min_ev →
  read_csv env (csv_path env) = CsvRaised e ∨
  (read_csv env (csv_path env) = CsvWithoutOdds ∧
   e = "CSV must contain an 'american_odds' column."%string) →
  run (analyze env arg_min_ev arg_explain)
  = (Error500 ("Failed to load props CSV: " ++ e),
     [EvReadCsv (csv_path env); EvLog ERROR ("Error loading CSV: " ++ e)]).
Proof.
  intros Hparse Hcsv. unfold run, analyze. rewrite Hparse.
  rewrite io_bind_run. unfold load_props. rewrite io_bind_run, emit_run.
  cbn [fst snd mret IO_ret io_ret].
  destruct Hcsv as [-> | [-> ->]]; now rewrite io_bind_run, emit_run.
Qed.

(** X10. Without [explain] (absent, or not one of true, 1, yes, y in any
    letter case) the answer is the filtered rows with no [llm_explanation]
    on any of them, and the only effect of the request is reading the
    CSV: no request to the backend, no log line. *)
Theorem analyze_without_explain (arg_min_ev arg_explain : option string)
    (min_ev : F) (df : list (PropRecord F)) (enriched : list (EnrichedProp F)) :
  float_of_str env (default "0.0"%string arg_min_ev) = Some min_ev →
  read_csv env (csv_path env) = CsvFrame df →
  enrich_props df = Some enriched →
  truthy (lower (default "false"%string arg_explain)) = false →
  ∃ records,
    run (analyze env arg_min_ev arg_explain)
    = (Json200 records, [EvReadCsv (csv_path env)]) ∧
    fields <$> records = filter_ev min_ev enriched ∧
    Forall (λ d, llm_explanation d = None) records.
Proof.
  intros Hparse Hcsv Henrich Hoff. exists (to_dict (filter_ev min_ev enriched)).
  split; [|split].
  - unfold run.
    rewrite (analyze_enriched env arg_min_ev arg_explain [] min_ev df enriched
               Hparse Hcsv Henrich).
    rewrite Hoff, select_and_explain_plain. reflexivity.
  - apply to_dict_fields.
  - unfold to_dict. apply Forall_fmap, Forall_true. reflexivity.
Qed.

(** *** The requests that are sent *)

Lemma omap_pointwise {A B} (f g : A → option B) (l : list A) :
  (∀ x, f x = g x) → omap f l = omap g l.
Proof.
  intros Hfg. induction l as [| x l IH]; [reflexivity|].
  cbn. now rewrite Hfg, IH.
Qed.

Lemma omap_length_le {A B} (f : A → option B) (l : list A) :
  (length (omap f l) <= length l)%nat.
Proof.
  induction l as [| x l IH]; [reflexivity|].
  cbn. destruct (f x); cbn; lia.
Qed.

Lemma insert_fields_lookup (heap : list (PropDict F)) (r r' : nat) (d : PropDict F)
    (text : string) :
  heap !! r = Some d →
  fields <$> (<[r := mkDict (fields d) (Some text)]> heap) !! r'
  = fields <$> heap !! r'.
Proof.
  intros Hd. destruct (decide (r = r')) as [<- | Hne].
  - rewrite list_lookup_insert_eq by (now apply lookup_lt_Some in Hd).
    now rewrite Hd.
  - now rewrite list_lookup_insert_ne.
Qed.

Lemma get_llm_explanation_posts (base : string) (prop : PropDict F) (t : list Event) :
  configured env base →
  List.filter is_post (get_llm_explanation env prop t).2
  = List.filter is_post t ++ [post_of env base (fields prop)].
Proof.
  intros Hbase. rewrite (get_llm_explanation_configured env base prop t Hbase).
  unfold post_of. destruct (requests_post env t _ _); cbn [snd];
    rewrite ?List.filter_app; cbn; rewrite ?app_nil_r; reflexivity.
Qed.

Lemma explain_loop_posts (base : string) (refs : list nat) :
  configured env base →
  ∀ (heap : list (PropDict F)) (t : list Event),
    List.filter is_post (explain_loop env refs heap t).2
    = List.filter is_post t
      ++ (post_of env base <$> omap (λ r, fields <$> heap !! r) refs).
Proof.
  intros Hbase. induction refs as [| r refs IH]; intros heap t.
  - cbn. now rewrite app_nil_r.
  - destruct (heap !! r) as [d|] eqn:Hr.
    + rewrite (explain_loop_step _ _ _ _ _ _ Hr), IH.
      rewrite (get_llm_explanation_posts base d t Hbase), <- app_assoc.
      f_equal. cbn [omap list_omap]. rewrite Hr. cbn. f_equal. f_equal.
      apply omap_pointwise. intros r'. now apply insert_fields_lookup.
    + rewrite (explain_loop_skip _ _ _ _ _ Hr), IH.
      cbn [omap list_omap]. now rewrite Hr.
Qed.

(** X11. With [explain] and a configured backend, the requests of a call are
    exactly one per record of the top of the ranking, in rank order, each
    to the same endpoint with the payload made of that record's own
    fields and a timeout of 20; they are at most three. *)
Theorem requests_sent (base : string) (min_ev : F)
    (enriched : list (EnrichedProp F)) (t : list Event) :
  configured env base →
  ∃ explained : list (EnrichedProp F),
    let filtered := filter_ev min_ev enriched in
    let n := length filtered in
    explained
    = omap (λ r, filtered !! r)
           (take (Nat.min 3 n) (sorted_desc (ev_at (to_dict filtered)) (seq 0 n))) ∧
    List.filter is_post (select_and_explain env min_ev true enriched t).2
    = List.filter is_post t ++ (post_of env base <$> explained) ∧
    (length explained <= 3)%nat.
Proof.
  intros Hbase. eexists. cbv zeta. split; [reflexivity|]. split.
  - destruct (decide (filter_ev min_ev enriched = [])) as [Hnone | Hsome].
    + rewrite (select_and_explain_nothing _ _ _ _ _ Hnone), Hnone. cbn.
      now rewrite app_nil_r.
    + rewrite (select_and_explain_explained _ _ _ _ Hsome), explain_top_k_run.
      cbn [fst snd]. rewrite (explain_loop_posts base _ Hbase).
      rewrite List.filter_app. cbn [List.filter is_post]. rewrite app_nil_r.
      f_equal. f_equal.
      assert (Hlen : length (to_dict (filter_ev min_ev enriched))
                     = length (filter_ev min_ev enriched))
        by (unfold to_dict; apply length_fmap).
      rewrite Hlen, (Permutation_length (sorted_desc_perm _ _)), length_seq.
      apply omap_pointwise. intros r. rewrite to_dict_lookup.
      now destruct (filter_ev min_ev enriched !! r).
  - etransitivity; [apply omap_length_le|]. rewrite length_take. lia.
Qed.

(** The normal path of [get_llm_explanation]: with a configured backend
    that answers, the text returned is the stripped completion, one
    request was sent and nothing was logged. *)
Lemma get_llm_explanation_completion (base content : string) (prop : PropDict F)
    (t : list Event) :
  configured env base →
  requests_post env t (endpoint base) (chat_payload env (format_prompt env (fields prop)))
  = Completion content →
  get_llm_explanation env prop t
  = (str_strip env content, t ++ [post_of env base (fields prop)]).
Proof.
  intros Hbase Hanswer.
  rewrite (get_llm_explanation_configured env base prop t Hbase).
  cbv zeta. now rewrite Hanswer.
Qed.

End HandlerFacts.

Lemma analyze_load_failure_witness :
  (float_of_str env_without_column (default "0.0"%string None) = Some 0 ∧
   (read_csv env_without_column (csv_path env_without_column)
    = CsvRaised "CSV must contain an 'american_odds' column."%string ∨
    (read_csv env_without_column (csv_path env_without_column) = CsvWithoutOdds ∧
     "CSV must contain an 'american_odds' column."%string
     = "CSV must contain an 'american_odds' column."%string))) ∧
  run (analyze env_without_column None (Some "true"%string))
  = (Error500 "Failed to load props CSV: CSV must contain an 'american_odds' column.",
     [EvReadCsv "props.csv";
      EvLog ERROR "Error loading CSV: CSV must contain an 'american_odds' column."]).
Proof.
  assert (H1 : float_of_str env_without_column (default "0.0"%string None) = Some 0)
    by reflexivity.
  assert (H2 : read_csv env_without_column (csv_path env_without_column)
               = CsvRaised "CSV must contain an 'american_odds' column."%string ∨
               (read_csv env_without_column (csv_path env_without_column)
                = CsvWithoutOdds ∧
                "CSV must contain an 'american_odds' column."%string
                = "CSV must contain an 'american_odds' column."%string))
    by (right; split; reflexivity).
  split; [auto|].
  exact (analyze_load_failure env_without_column None (Some "true"%string) 0 _ H1 H2).
Defined.

Lemma analyze_without_explain_witness :
  (float_of_str (demo_env None) (default "0.0"%string (Some "-1"%string)) = Some (- (1)) ∧
   read_csv (demo_env None) (csv_path (demo_env None)) = CsvFrame demo_rows ∧
   enrich_props demo_rows = Some demo_rows_enriched ∧
   truthy (lower (default "false"%string None)) = false) ∧
  ∃ records,
    run (analyze (demo_env None) (Some "-1"%string) None)
    = (Json200 records, [EvReadCsv (csv_path (demo_env None))]) ∧
    fields <$> records = filter_ev (- (1)) demo_rows_enriched ∧
    Forall (λ d, llm_explanation d = None) records.
Proof.
  assert (H1 : float_of_str (demo_env None) (default "0.0"%string (Some "-1"%string))
               = Some (- (1))) by reflexivity.
  assert (H2 : read_csv (demo_env None) (csv_path (demo_env None)) = CsvFrame demo_rows)
    by reflexivity.
  assert (H3 : enrich_props demo_rows = Some demo_rows_enriched) by reflexivity.
  assert (H4 : truthy (lower (default "false"%string None)) = false) by reflexivity.
  split; [auto|].
  exact (analyze_without_explain (demo_env None) (Some "-1"%string) None (- (1))
           demo_rows demo_rows_enriched H1 H2 H3 H4).
Defined.

Lemma requests_sent_witness :
  configured (demo_env (Some "http://llm:8000//"%string)) "http://llm:8000//" ∧
  ∃ explained : list (EnrichedProp Q),
    List.filter is_post
      (select_and_explain (demo_env (Some "http://llm:8000//"%string)) 0 true
         demo_enriched []).2
    = post_of (demo_env (Some "http://llm:8000//"%string)) "http://llm:8000//"
        <$> explained ∧
    (length explained <= 3)%nat.
Proof.
  assert (H1 : configured (demo_env (Some "http://llm:8000//"%string)) "http://llm:8000//")
    by (split; [reflexivity | discriminate]).
  split; [exact H1|].
  destruct (requests_sent (demo_env (Some "http://llm:8000//"%string))
              "http://llm:8000//" 0 demo_enriched [] H1) as (explained & _ & Hposts & Hlen).
  exists explained. auto.
Defined.

(** *** The base URL *)

Lemma rstrip_slash_slashes (k : nat) : rstrip_slash (slashes k) = EmptyString.
Proof. induction k as [| k IH]; [reflexivity|]. cbn. now rewrite IH. Qed.

Lemma rstrip_slash_app (s : string) (k : nat) :
  rstrip_slash (s ++ slashes k) = rstrip_slash s.
Proof.
  induction s as [| c s IH]; cbn.
  - apply rstrip_slash_slashes.
  - now rewrite IH.
Qed.

Lemma rstrip_slash_decompose (s : string) :
  ∃ k, s = (rstrip_slash s ++ slashes k)%string.
Proof.
  induction s as [| c s [k IH]]; [exists 0%nat; reflexivity|].
  cbn. destruct (rstrip_slash s) as [| c1 t1] eqn:E.
  - destruct (Ascii.eqb c "/") eqn:Ec.
    + apply Ascii.eqb_eq in Ec as ->. exists (S k). cbn. now f_equal.
    + exists k. cbn. now f_equal.
  - exists k. cbn. f_equal. exact IH.
Qed.

Lemma rstrip_slash_no_trailing (s : string) :
  ∀ s', rstrip_slash s ≠ (s' ++ "/")%string.
Proof.
  induction s as [| c s IH]; intros s'; cbn.
  - destruct s'; discriminate.
  - destruct (rstrip_slash s) as [| c1 t1] eqn:E.
    + destruct (Ascii.eqb c "/") eqn:Ec.
      * destruct s'; discriminate.
      * destruct s' as [| c' s'']; cbn.
        -- intros [= ->]. discriminate Ec.
        -- destruct s''; discriminate.
    + destruct s' as [| c' s'']; cbn.
      * discriminate.
      * intros [= _ Htail]. exact (IH s'' Htail).
Qed.

(** X12. Trailing slashes of [VLLM_BASE_URL] do not matter: a base URL with
    more of them posts to the same endpoint, which is the base without
    its trailing slashes followed by [/v1/chat/completions]. *)
Theorem endpoint_ignores_trailing_slashes (base : string) (k : nat) :
  endpoint (base ++ slashes k) = endpoint base ∧
  (∃ j stem, base = (stem ++ slashes j)%string ∧
             (∀ s', stem ≠ (s' ++ "/")%string) ∧
             endpoint base = (stem ++ "/v1/chat/completions")%string).
Proof.
  split.
  - unfold endpoint. now rewrite rstrip_slash_app.
  - destruct (rstrip_slash_decompose base) as [j Hj].
    exists j, (rstrip_slash base). split; [exact Hj|]. split.
    + apply rstrip_slash_no_trailing.
    + reflexivity.
Qed.

(** *** The ranking *)

(** X13. The sorted copy is a rearrangement of the list, in descending order
    of the key, in which records of equal key keep their original
    order. *)
Theorem sorted_desc_spec {A : Type} (key : A → Q) (l : list A) :
  sorted_desc key l ≡ₚ l ∧
  StronglySorted (λ a b, key b <= key a) (sorted_desc key l) ∧
  (∀ c, List.filter (λ a, Qeq_bool (key a) c) (sorted_desc key l)
        = List.filter (λ a, Qeq_bool (key a) c) l).
Proof.
  split; [apply sorted_desc_perm|]. split; [apply sorted_desc_sorted|].
  intros c. apply sorted_desc_stable.
Qed.

(** When all keys are equal the sorted copy is the list itself. *)
Lemma sorted_desc_ties_id {A : Type} (key : A → Q) (c : Q) (l : list A) :
  Forall (λ a, key a == c) l → sorted_desc key l = l.
Proof.
  induction 1 as [| x l Hx Hl IH]; [reflexivity|].
  cbn [sorted_desc foldr]. unfold sorted_desc in IH. rewrite IH.
  destruct Hl as [| y l Hy Hl]; [reflexivity|].
  cbn [insert_desc]. destruct (gtb (key y) (key x)) eqn:E; [|reflexivity].
  apply Q_gtb_spec in E. lra.
Qed.

(** * Further properties of the handler in exact arithmetic *)

Lemma analyze_unhandled {F : Type} `{PyNum F} (env : Env F)
    (arg_min_ev arg_explain : option string) (t : list Event)
    (min_ev : F) (df : list (PropRecord F)) :
  float_of_str env (default "0.0"%string arg_min_ev) = Some min_ev →
  read_csv env (csv_path env) = CsvFrame df →
  enrich_props df = None →
  analyze env arg_min_ev arg_explain t = (Unhandled, t ++ [EvReadCsv (csv_path env)]).
Proof.
  intros Hparse Hcsv Henrich. unfold analyze. rewrite Hparse.
  rewrite io_bind_run. unfold load_props. rewrite io_bind_run, emit_run.
  cbn [fst snd mret IO_ret io_ret]. now rewrite Hcsv, Henrich.
Qed.

(** X8. One row with zero odds in the CSV and the request dies of the
    [ZeroDivisionError] that [analyze] does not catch: no JSON answer of
    the handler, neither 200 nor 400 nor 500, and nothing is filtered or
    explained. *)
Theorem analyze_zero_odds_unhandled (env : Env Q)
    (arg_min_ev arg_explain : option string) (min_ev : Q) (df : list (PropRecord Q)) :
  float_of_str env (default "0.0"%string arg_min_ev) = Some min_ev →
  read_csv env (csv_path env) = CsvFrame df →
  Exists (λ r, american_odds r == 0) df →
  run (analyze env arg_min_ev arg_explain) = (Unhandled, [EvReadCsv (csv_path env)]).
Proof.
  intros Hparse Hcsv Hzero. unfold run.
  apply (analyze_unhandled env arg_min_ev arg_explain [] min_ev df Hparse Hcsv).
  now apply enrich_props_zero_odds.
Qed.

Lemma analyze_zero_odds_unhandled_witness :
  (float_of_str env_zero_odds (default "0.0"%string None) = Some 0 ∧
   read_csv env_zero_odds (csv_path env_zero_odds)
   = CsvFrame [mkProp "A" "Over 24.5 points" 150; mkProp "Z" "Over 0.5 blocks" 0] ∧
   Exists (λ r : PropRecord Q, american_odds r == 0)
     [mkProp "A" "Over 24.5 points" 150; mkProp "Z" "Over 0.5 blocks" 0]) ∧
  run (analyze env_zero_odds None None) = (Unhandled, [EvReadCsv "props.csv"]).
Proof.
  assert (H1 : float_of_str env_zero_odds (default "0.0"%string None) = Some 0)
    by reflexivity.
  assert (H2 : read_csv env_zero_odds (csv_path env_zero_odds)
               = CsvFrame [mkProp "A" "Over 24.5 points" 150;
                           mkProp "Z" "Over 0.5 blocks" 0]) by reflexivity.
  assert (H3 : Exists (λ r : PropRecord Q, american_odds r == 0)
                 [mkProp "A" "Over 24.5 points" 150; mkProp "Z" "Over 0.5 blocks" 0])
    by (apply Exists_cons_tl, Exists_cons_hd; reflexivity).
  split; [auto|].
  exact (analyze_zero_odds_unhandled env_zero_odds None None 0 _ H1 H2 H3).
Defined.

(** *** Thresholds *)

Lemma filter_ev_all (min_ev : Q) (enriched : list (EnrichedProp Q)) :
  Forall (λ e, min_ev <= ev_per_dollar e) enriched → filter_ev min_ev enriched = enriched.
Proof.
  unfold filter_ev. induction 1 as [| e l He _ IH]; [reflexivity|].
  cbn [List.filter]. apply Q_geb_spec in He. rewrite He. now f_equal.
Qed.

(** X14. A stricter threshold gives a subsequence of the answer of a laxer
    one, the one that filtering that answer again would give. *)
Theorem filter_ev_stricter (min1 min2 : Q) (enriched : list (EnrichedProp Q)) :
  min1 <= min2 →
  filter_ev min2 (filter_ev min1 enriched) = filter_ev min2 enriched ∧
  filter_ev min2 enriched `sublist_of` filter_ev min1 enriched.
Proof.
  intros Hle.
  assert (Heq : filter_ev min2 (filter_ev min1 enriched) = filter_ev min2 enriched).
  { unfold filter_ev. induction enriched as [| e l IH]; [reflexivity|].
    cbn [List.filter].
    destruct (geb (ev_per_dollar e) min1) eqn:E1.
    - cbn [List.filter]. destruct (geb (ev_per_dollar e) min2); now rewrite IH.
    - destruct (geb (ev_per_dollar e) min2) eqn:E2; [|exact IH].
      apply Q_geb_spec in E2. assert (Hge : min1 <= ev_per_dollar e) by lra.
      apply Q_geb_spec in Hge. congruence. }
  split; [exact Heq|]. rewrite <- Heq. apply filter_ev_sublist.
Qed.

Lemma filter_ev_stricter_witness :
  0 <= 0.15 ∧
  filter_ev 0.15 (filter_ev 0 demo_enriched) = filter_ev 0.15 demo_enriched ∧
  filter_ev 0.15 demo_enriched `sublist_of` filter_ev 0 demo_enriched.
Proof.
  assert (H1 : 0 <= 0.15) by (intros E; discriminate E).
  split; [exact H1 | exact (filter_ev_stricter 0 0.15 demo_enriched H1)].
Defined.

(** X15. In binary64 every expected value of a CSV of nonzero integer odds
    of magnitude at most 100,000 is above -0.02 - 1e-15, so a threshold at
    or below -0.02 - 1e-15 returns every row of the CSV, in order. *)
Theorem analyze_returns_every_row (env : Env float)
    (arg_min_ev arg_explain : option string) (min_ev : float)
    (df : list (PropRecord float)) :
  float_of_str env (default "0.0"%string arg_min_ev) = Some min_ev →
  PrimFloat.leb min_ev ev_low = true →
  read_csv env (csv_path env) = CsvFrame df →
  Forall integer_odds df →
  ∃ enriched records t',
    enrich_props df = Some enriched ∧
    run (analyze env arg_min_ev arg_explain) = (Json200 records, t') ∧
    fields <$> records = enriched ∧
    length records = length df.
Proof.
  intros Hparse Hmin Hcsv Hdf.
  destruct (enrich_props_near_constant df Hdf) as (enriched & Henrich & Hrows).
  assert (Hall : filter_ev min_ev enriched = enriched).
  { apply (filter_ev_all_binary64 min_ev enriched Hmin).
    clear -Hrows. induction Hrows as [| r e df enriched Hre _ IH]; constructor; tauto. }
  pose proof (analyze_enriched env arg_min_ev arg_explain [] min_ev df enriched
                Hparse Hcsv Henrich) as Hrun.
  cbv zeta in Hrun. eexists enriched, _, _. split; [exact Henrich|].
  split; [exact Hrun|].
  assert (Hfields : ∀ explain t,
             fields <$> (select_and_explain env min_ev explain enriched t).1 = enriched)
    by (intros; now rewrite select_and_explain_fields).
  split; [apply Hfields|].
  rewrite <- (length_fmap fields), Hfields.
  symmetry. exact (Forall2_length _ _ _ Hrows).
Qed.

Lemma analyze_returns_every_row_witness :
  (float_of_str (demo64_env None) (default "0.0"%string (Some "-0.03"%string))
   = Some (-0.03)%float ∧
   PrimFloat.leb (-0.03) ev_low = true ∧
   read_csv (demo64_env None) (csv_path (demo64_env None)) = CsvFrame demo64_rows ∧
   Forall integer_odds demo64_rows) ∧
  ∃ records t',
    run (analyze (demo64_env None) (Some "-0.03"%string) None) = (Json200 records, t') ∧
    fields <$> records = demo64_enriched ∧
    length records = length demo64_rows.
Proof.
  assert (H1 : float_of_str (demo64_env None) (default "0.0"%string (Some "-0.03"%string))
               = Some (-0.03)%float) by reflexivity.
  assert (H2 : PrimFloat.leb (-0.03) ev_low = true) by reflexivity.
  assert (H3 : read_csv (demo64_env None) (csv_path (demo64_env None))
               = CsvFrame demo64_rows) by reflexivity.
  assert (H4 : Forall integer_odds demo64_rows) by exact demo64_integer_odds.
  split; [auto|].
  destruct (analyze_returns_every_row (demo64_env None) (Some "-0.03"%string) None
              (-0.03)%float demo64_rows H1 H2 H3 H4)
    as (enriched & records & t' & Henrich & Hrun & Hfields & Hlen).
  exists records, t'. split; [exact Hrun|]. split; [|exact Hlen].
  rewrite Hfields. change (enrich_props demo64_rows) with (Some demo64_enriched) in Henrich.
  now injection Henrich as <-.
Defined.

(** *** A ranking that changes nothing *)

Section InOrder.
Context {F : Type} `{PyNum F}.

Lemma sorted_desc_in_order {A : Type} (key : A → F) (l : list A) :
  Sorted (λ a b, gtb (key b) (key a) = false) l → sorted_desc key l = l.
Proof.
  induction 1 as [| x l Hl IH Hx]; [reflexivity|].
  cbn [sorted_desc foldr]. unfold sorted_desc in IH. rewrite IH.
  destruct Hx as [| y l Hxy]; [reflexivity|].
  cbn [insert_desc]. now rewrite Hxy.
Qed.

Lemma ev_at_in_order (filtered : list (EnrichedProp F)) :
  in_rank_order filtered →
  ∀ pre : list (PropDict F),
    Sorted (λ i j, gtb (ev_at (pre ++ to_dict filtered) j)
                       (ev_at (pre ++ to_dict filtered) i) = false)
           (seq (length pre) (length filtered)).
Proof.
  induction 1 as [| x l Hl IH Hx]; intros pre; [constructor|].
  cbn [length seq]. change (to_dict (x :: l)) with (mkDict x None :: to_dict l).
  rewrite (cons_middle (mkDict x None) pre (to_dict l)), app_assoc.
  specialize (IH (pre ++ [mkDict x None])).
  rewrite length_app in IH. cbn [length] in IH. rewrite Nat.add_1_r in IH.
  constructor; [exact IH|].
  destruct Hx as [| y l Hxy]; [constructor|].
  cbn [length seq]. constructor.
  assert (H0 : ev_at ((pre ++ [mkDict x None]) ++ to_dict (y :: l)) (length pre)
               = ev_per_dollar x).
  { unfold ev_at. rewrite <- app_assoc. cbn [app]. now rewrite list_lookup_middle. }
  assert (H1 : ev_at ((pre ++ [mkDict x None]) ++ to_dict (y :: l)) (S (length pre))
               = ev_per_dollar y).
  { unfold ev_at. change (to_dict (y :: l)) with (mkDict y None :: to_dict l).
    rewrite list_lookup_middle; [reflexivity|].
    rewrite length_app. cbn [length]. lia. }
  now rewrite H0, H1.
Qed.

Lemma select_and_explain_in_order (env : Env F) (min_ev : F)
    (enriched : list (EnrichedProp F)) (t : list Event) :
  in_rank_order (filter_ev min_ev enriched) →
  ∀ (i : nat) (d : PropDict F),
    (select_and_explain env min_ev true enriched t).1 !! i = Some d →
    (is_Some (llm_explanation d) ↔ (i < 3)%nat).
Proof.
  intros Horder i d.
  destruct (decide (filter_ev min_ev enriched = [])) as [Hnone | Hsome].
  { rewrite (select_and_explain_nothing _ _ _ _ _ Hnone). discriminate. }
  rewrite (select_and_explain_explained _ _ _ _ Hsome), explain_top_k_run.
  cbn [fst snd].
  set (filtered := filter_ev min_ev enriched) in *.
  set (heap := to_dict filtered).
  assert (Hlen : length heap = length filtered) by (unfold heap, to_dict; apply length_fmap).
  assert (Hsorted : sorted_desc (ev_at heap) (seq 0 (length heap)) = seq 0 (length heap)).
  { apply sorted_desc_in_order. rewrite Hlen.
    exact (ev_at_in_order filtered Horder []). }
  rewrite Hsorted, length_seq, take_seq.
  replace (Nat.min (Nat.min 3 (length heap)) (length heap)) with (Nat.min 3 (length heap))
    by lia.
  set (top := seq 0 (Nat.min 3 (length heap))).
  set (t1 := t ++ _).
  intros Hd.
  assert (Hi : (i < length heap)%nat).
  { apply lookup_lt_Some in Hd. now rewrite explain_loop_length in Hd. }
  destruct (lookup_lt_is_Some_2 heap i Hi) as [d0 Hd0].
  assert (Hnone0 : llm_explanation d0 = None).
  { unfold heap in Hd0. rewrite to_dict_lookup in Hd0.
    destruct (filtered !! i); [|discriminate]. now injection Hd0 as <-. }
  destruct (decide (i ∈ top)) as [Hin | Hout].
  - destruct (explain_loop_explained env top i (NoDup_seq _ _) Hin heap t1 d0 Hd0)
      as [t0 Ht0].
    rewrite Ht0 in Hd. injection Hd as <-. cbn.
    apply elem_of_seq in Hin. split; [lia | eauto].
  - rewrite (explain_loop_other env top i Hout) in Hd.
    rewrite Hd0 in Hd. injection Hd as <-. rewrite Hnone0.
    split; [intros [? [=]]|].
    intros Hlt. exfalso. apply Hout, elem_of_seq. lia.
Qed.

(** X16. When the rows that pass the filter are already in rank order (no
    row has a greater [ev_per_dollar] than the row before it: tied rows
    are), the stable sort keeps them in CSV order: with [explain] on, the
    records of the answer that carry an [llm_explanation] are exactly its
    first three. This holds for any arithmetic, binary64 included. *)
Theorem analyze_explains_first_rows (env : Env F)
    (arg_min_ev arg_explain : option string) (min_ev : F)
    (df : list (PropRecord F)) (enriched : list (EnrichedProp F)) :
  float_of_str env (default "0.0"%string arg_min_ev) = Some min_ev →
  read_csv env (csv_path env) = CsvFrame df →
  enrich_props df = Some enriched →
  in_rank_order (filter_ev min_ev enriched) →
  truthy (lower (default "false"%string arg_explain)) = true →
  ∃ records t',
    run (analyze env arg_min_ev arg_explain) = (Json200 records, t') ∧
    fields <$> records = filter_ev min_ev enriched ∧
    ∀ (i : nat) (d : PropDict F),
      records !! i = Some d → (is_Some (llm_explanation d) ↔ (i < 3)%nat).
Proof.
  intros Hparse Hcsv Henrich Horder Hon.
  pose proof (analyze_enriched env arg_min_ev arg_explain [] min_ev df enriched
                Hparse Hcsv Henrich) as Hrun.
  cbv zeta in Hrun. rewrite Hon in Hrun.
  eexists _, _. split; [exact Hrun|]. split.
  - apply select_and_explain_fields.
  - now apply select_and_explain_in_order.
Qed.

End InOrder.

Lemma analyze_explains_first_rows_witness :
  (float_of_str (demo64_env None)
     (default "0.0"%string (Some "-0.02000000000000002"%string))
   = Some (-0.02000000000000002)%float ∧
   read_csv (demo64_env None) (csv_path (demo64_env None)) = CsvFrame demo64_rows ∧
   enrich_props demo64_rows = Some demo64_enriched ∧
   in_rank_order (filter_ev (-0.02000000000000002)%float demo64_enriched) ∧
   truthy (lower (default "false"%string (Some "Yes"%string))) = true) ∧
  ∃ records t',
    run (analyze (demo64_env None) (Some "-0.02000000000000002"%string)
           (Some "Yes"%string))
    = (Json200 records, t') ∧
    (e_player <$> (fields <$> records)) = ["A"; "C"; "D"; "E"]%string ∧
    ∀ (i : nat) (d : PropDict float),
      records !! i = Some d → (is_Some (llm_explanation d) ↔ (i < 3)%nat).
Proof.
  assert (H1 : float_of_str (demo64_env None)
                 (default "0.0"%string (Some "-0.02000000000000002"%string))
               = Some (-0.02000000000000002)%float) by reflexivity.
  assert (H2 : read_csv (demo64_env None) (csv_path (demo64_env None))
               = CsvFrame demo64_rows) by reflexivity.
  assert (H3 : enrich_props demo64_rows = Some demo64_enriched) by reflexivity.
  assert (H4 : in_rank_order (filter_ev (-0.02000000000000002)%float demo64_enriched))
    by (repeat constructor).
  assert (H5 : truthy (lower (default "false"%string (Some "Yes"%string))) = true)
    by reflexivity.
  split; [auto 6|].
  destruct (analyze_explains_first_rows (demo64_env None)
              (Some "-0.02000000000000002"%string) (Some "Yes"%string)
              (-0.02000000000000002)%float demo64_rows demo64_enriched H1 H2 H3 H4 H5)
    as (records & t' & Hrun & Hfields & Hexplained).
  exists records, t'. split; [exact Hrun|]. split; [|exact Hexplained].
  rewrite Hfields. reflexivity.
Defined.

(** * What an explanation can be *)

Section Texts.
Context {F : Type} `{PyNum F} (env : Env F).

Lemma get_llm_explanation_text (prop : PropDict F) (t : list Event) :
  explanation_text env (get_llm_explanation env prop t).2 (fields prop)
                   (get_llm_explanation env prop t).1.
Proof.
  unfold explanation_text.
  destruct (VLLM_BASE_URL env) as [[| c base] |] eqn:Hurl.
  - left. rewrite get_llm_explanation_unconfigured by now right.
    split; [now right | reflexivity].
  - right.
    assert (Hbase : configured env (String c base)) by (split; [assumption | discriminate]).
    exists (String c base), t. split; [exact Hbase|].
    rewrite (get_llm_explanation_configured env _ prop t Hbase).
    unfold sent_before, post_of.
    destruct (requests_post env t _ _) as [e | e | e | e | content] eqn:Hpost;
      cbn [fst snd];
      (split; [| first [ right; eexists; split; reflexivity
                       | left; split; [exact I | reflexivity] ] ]).
    all: try (apply prefix_app_r; reflexivity).
    all: reflexivity.
  - left. rewrite get_llm_explanation_unconfigured by now left.
    split; [now left | reflexivity].
Qed.

Lemma get_llm_explanation_extends (prop : PropDict F) (t : list Event) :
  t `prefix_of` (get_llm_explanation env prop t).2.
Proof.
  destruct (VLLM_BASE_URL env) as [[| c base] |] eqn:Hurl.
  - rewrite get_llm_explanation_unconfigured by now right. reflexivity.
  - assert (Hbase : configured env (String c base)) by (split; [assumption | discriminate]).
    rewrite (get_llm_explanation_configured env _ prop t Hbase).
    destruct (requests_post env t _ _); cbn [fst snd];
      rewrite <- ?app_assoc; apply prefix_app_r; reflexivity.
  - rewrite get_llm_explanation_unconfigured by now left. reflexivity.
Qed.

Lemma explanation_field_later (t t' : list Event) (d : PropDict F) :
  t `prefix_of` t' → explanation_field env t d → explanation_field env t' d.
Proof.
  intros Htt' [Hnone | (text & Htext & Hd)]; [now left | right].
  exists text. split; [exact Htext|].
  destruct Hd as [Hd | (base & t0 & Hbase & Hsent & Hd)]; [now left | right].
  exists base, t0. split; [exact Hbase|]. split; [|exact Hd].
  unfold sent_before in *. now transitivity t.
Qed.

Lemma explain_loop_texts (refs : list nat) :
  ∀ (heap : list (PropDict F)) (t : list Event),
    Forall (explanation_field env t) heap →
    Forall (explanation_field env (explain_loop env refs heap t).2)
           (explain_loop env refs heap t).1.
Proof.
  induction refs as [| r refs IH]; intros heap t Hheap; [exact Hheap|].
  destruct (heap !! r) as [d|] eqn:Hr.
  - rewrite (explain_loop_step _ _ _ _ _ _ Hr). apply IH.
    apply Forall_insert.
    + eapply Forall_impl; [exact Hheap|]. intros d'.
      apply explanation_field_later, get_llm_explanation_extends.
    + right. eexists. split; [reflexivity | exact (get_llm_explanation_text d t)].
  - rewrite (explain_loop_skip _ _ _ _ _ Hr). now apply IH.
Qed.

(** X17. Whatever the backend answers or raises, a record of the answer
    either has no [llm_explanation], or its text is what the call for that
    very record produced: the "not configured" message when no URL is
    set; otherwise a request for the record's prompt was sent to the
    endpoint during the call, and the text is the stripped completion
    when the backend completed it and the fixed "error" message when any
    step of the call raised. The text of an exception reaches the log
    only, never the caller. *)
Theorem explanation_texts (min_ev : F) (explain : bool)
    (enriched : list (EnrichedProp F)) (t : list Event) :
  Forall (explanation_field env (select_and_explain env min_ev explain enriched t).2)
         (select_and_explain env min_ev explain enriched t).1.
Proof.
  assert (Hheap : ∀ t0, Forall (explanation_field env t0)
                               (to_dict (filter_ev min_ev enriched))).
  { intros t0. unfold to_dict. apply Forall_fmap, Forall_true. intros e. now left. }
  destruct explain.
  - destruct (decide (filter_ev min_ev enriched = [])) as [Hnone | Hsome].
    + rewrite (select_and_explain_nothing _ _ _ _ _ Hnone). constructor.
    + rewrite (select_and_explain_explained _ _ _ _ Hsome), explain_top_k_run.
      cbn [fst snd]. apply explain_loop_texts, Hheap.
  - rewrite select_and_explain_plain. apply Hheap.
Qed.

End Texts.

(** * Worked examples *)

Section Examples.
Local Open Scope string_scope.
Local Set Warnings "-inexact-float".

(** The two scenarios of the specification, computed in binary64 as
    CPython does: the expected values are -0.02 up to rounding, and not
    equal to each other. *)
Example enrich_props_binary64_scenarios :
  enrich_props [mkProp "P" "Over 24.5 points" 150%float;
                mkProp "R" "Over 7.5 rebounds" (-110)%float]
  = Some [mkEnriched "P" "Over 24.5 points" 150%float
            0.40000000000000002%float 0.39200000000000002%float
            (-0.019999999999999907)%float;
          mkEnriched "R" "Over 7.5 rebounds" (-110)%float
            0.52380952380952384%float 0.51333333333333331%float
            (-0.020000000000000073)%float].
Proof. vm_compute. reflexivity. Qed.

(** The same rows in exact arithmetic. *)
Example enrich_props_exact_scenarios :
  Forall2 (λ e ev, implied_prob e == fst ev ∧ true_prob e == snd ev ∧
                   ev_per_dollar e == - (1 # 50))
          demo_rows_enriched
          [(0.4, 0.392); (11 # 21, 539 # 1050); (1 # 3, 49 # 150);
           (0.75, 0.735); (5 # 11, 49 # 110)].
Proof. repeat constructor. Qed.

(** [explain=TRUE] without a configured backend, in exact arithmetic: every
    row passes [min_ev = -1], the first three by EV (all equal there, so
    the first three rows) carry the fixed text, and no request is sent. *)
Example analyze_explain_unconfigured :
  let answer := run (analyze (demo_env None) (Some "-1") (Some "TRUE")) in
  match answer.1 with
  | Json200 records =>
      llm_explanation <$> records
      = [Some not_configured_msg; Some not_configured_msg; Some not_configured_msg;
         None; None]
  | _ => False
  end ∧
  answer.2 = [EvReadCsv "assets/sample_props.csv";
              EvLog INFO "Generating LLM explanations via vLLM..."].
Proof. vm_compute. split; reflexivity. Qed.

(** The same request in binary64, as the handler computes: the expected
    values differ in the last digits, row A ranks first, rows C, D and E
    tie and row B is last, so the rows A, C and D are explained. With
    [min_ev = -0.02] only row A passes the filter. *)
Example analyze_explain_binary64 :
  match (run (analyze (demo64_env None) (Some "-1") (Some "TRUE"))).1 with
  | Json200 records =>
      (λ d, (e_player (fields d), llm_explanation d)) <$> records
      = [("A", Some not_configured_msg); ("B", None); ("C", Some not_configured_msg);
         ("D", Some not_configured_msg); ("E", None)]
  | _ => False
  end ∧
  match (run (analyze (demo64_env None) (Some "-0.02") None)).1 with
  | Json200 records => e_player <$> (fields <$> records) = ["A"]
  | _ => False
  end.
Proof. vm_compute. split; reflexivity. Qed.

(** Outside the integer odds binary64 keeps none of the laws of exact
    arithmetic: between two close negative odds the implied probability
    grows, the win return of the odds 1e-323 is zero, and the expected
    value at probability 0 and odds -5e-324 is not a number. *)
Example binary64_outside_integer_odds :
  PrimFloat.ltb (-220.92781970116113) (-220.9278197011611) = true ∧
  american_to_prob (-220.92781970116113)%float = Some 0.68840345441813933%float ∧
  american_to_prob (-220.9278197011611)%float = Some 0.68840345441813944%float ∧
  PrimFloat.ltb 0.68840345441813933 0.68840345441813944 = true ∧
  win_return_of 1e-323%float = Some 0%float ∧
  match compute_ev_per_dollar 0%float (-5e-324)%float with
  | Some ev => PrimFloat.eqb ev ev = false
  | None => False
  end.
Proof. vm_compute. repeat split; reflexivity. Qed.

(** Ranking rows of different EV with a backend that times out once: the
    rows at positions 0, 1 and 3 of the filtered list are explained. *)
Example select_and_explain_ranked :
  llm_explanation <$>
    (select_and_explain (demo_env (Some "http://llm:8000//")) 0 true demo_enriched []).1
  = [Some error_msg; Some "About C"; None; Some "About E"].
Proof. vm_compute. reflexivity. Qed.

(** A CSV without the column, and a row with zero odds. *)
Example analyze_without_odds_column :
  run (analyze (mkEnv "props.csv" None "m" demo_float (λ s, s) (λ e, e_player e)
                  (λ _, CsvWithoutOdds) demo_backend) None None)
  = (Error500 "Failed to load props CSV: CSV must contain an 'american_odds' column.",
     [EvReadCsv "props.csv";
      EvLog ERROR "Error loading CSV: CSV must contain an 'american_odds' column."]).
Proof. vm_compute. reflexivity. Qed.

Example analyze_zero_odds_row :
  run (analyze (mkEnv "props.csv" None "m" demo_float (λ s, s) (λ e, e_player e)
                  (λ _, CsvFrame [mkProp "Z" "Over 0.5 blocks" 0]) demo_backend)
         None None)
  = (Unhandled, [EvReadCsv "props.csv"]).
Proof. vm_compute. reflexivity. Qed.

Example strings_of_the_handler :
  rstrip_slash "http://llm:8000//" = "http://llm:8000" ∧
  truthy (lower "YES") = true ∧ truthy (lower "on") = false.
Proof. repeat split. Qed.

(** Equal keys keep their order in the sorted copy. *)
Example sorted_desc_ties :
  sorted_desc (λ x : nat * Q, snd x)
    [(0%nat, 1); (1%nat, 3); (2%nat, 1); (3%nat, 3); (4%nat, 2)]
  = [(1%nat, 3); (3%nat, 3); (4%nat, 2); (0%nat, 1); (2%nat, 1)].
Proof. reflexivity. Qed.

End Examples.
